(** * a50_headset_manager: routing policy, sink parser and control loop

    A shallow embedding of [a50_headset_manager.py].

    Text is a [string] whose characters are read as the code points
    U+0000..U+00FF; the character classes below are CPython's for that
    range ([str.isspace], [str.lower], the [\w] and [\s] of [re] on str
    patterns, the line boundaries of [str.splitlines]).  Console output
    ([print]) is not part of the model. *)

From Stdlib Require Import String Ascii List ZArith Lia Bool.
Import ListNotations.
Open Scope string_scope.
Open Scope list_scope.

(** ** Python's string operations *)

Module Text.

Definition code (c : ascii) : N := N_of_ascii c.

Definition between (lo hi : N) (c : ascii) : bool :=
  ((lo <=? code c) && (code c <=? hi))%N.

Definition TAB : ascii := "009"%char.
Definition LF : ascii := "010"%char.
Definition CR : ascii := "013"%char.
Definition QUOTE : ascii := "034"%char.

(** [str.isspace] on one character; also the class [\s]. *)
Definition isspace (c : ascii) : bool :=
  between 9 13 c || between 28 32 c || (code c =? 133)%N || (code c =? 160)%N.

Definition isupper (c : ascii) : bool :=
  between 65 90 c || (between 192 222 c && negb (code c =? 215)%N).

Definition lower_char (c : ascii) : ascii :=
  if isupper c then ascii_of_N (code c + 32) else c.

(** [s.lower()] *)
Fixpoint lower (s : string) : string :=
  match s with
  | EmptyString => EmptyString
  | String c r => String (lower_char c) (lower r)
  end.

(** The class [\w] of [re]: alphanumeric characters and the underscore. *)
Definition isword (c : ascii) : bool :=
  between 48 57 c || between 65 90 c || between 97 122 c || (code c =? 95)%N
  || (code c =? 170)%N || between 178 179 c || (code c =? 181)%N
  || between 185 186 c || between 188 190 c
  || between 192 214 c || between 216 246 c || between 248 255 c.

(** [s.startswith(p)] *)
Fixpoint startswith (s p : string) {struct p} : bool :=
  match p with
  | EmptyString => true
  | String a p' =>
      match s with
      | String b s' => (a =? b)%char && startswith s' p'
      | EmptyString => false
      end
  end.

(** [sub in s] *)
Fixpoint contains (sub s : string) : bool :=
  startswith s sub ||
  match s with
  | EmptyString => false
  | String _ r => contains sub r
  end.

Definition head_isspace (s : string) : bool :=
  match s with
  | String c _ => isspace c
  | EmptyString => false
  end.

Fixpoint lstrip (s : string) : string :=
  match s with
  | EmptyString => EmptyString
  | String c r => if isspace c then lstrip r else s
  end.

(** [s.rstrip(chars)], the characters to strip given as a predicate. *)
Fixpoint rstrip_by (p : ascii -> bool) (s : string) : string :=
  match s with
  | EmptyString => EmptyString
  | String c r =>
      match rstrip_by p r with
      | EmptyString => if p c then EmptyString else String c EmptyString
      | r' => String c r'
      end
  end.

Definition rstrip (s : string) : string := rstrip_by isspace s.

(** [s.strip()] *)
Definition strip (s : string) : string := rstrip (lstrip s).

(** [s.split()]: the maximal runs of characters that are not whitespace. *)
Fixpoint split (s : string) : list string :=
  match s with
  | EmptyString => []
  | String c r =>
      if isspace c then split r
      else
        match split r with
        | [] => [String c EmptyString]
        | t :: ts =>
            if head_isspace r then String c EmptyString :: t :: ts
            else String c t :: ts
        end
  end.

(** The characters at which [str.splitlines] ends a line. *)
Definition islinebreak (c : ascii) : bool :=
  between 10 13 c || between 28 30 c || (code c =? 133)%N.

(** [s.splitlines()]: a carriage return followed by a line feed is one
    boundary, and no empty line follows a final boundary. *)
Fixpoint splitlines (s : string) : list string :=
  match s with
  | EmptyString => []
  | String c r =>
      if islinebreak c then
        EmptyString ::
        match r with
        | String c2 r2 =>
            if (c =? CR)%char && (c2 =? LF)%char then splitlines r2
            else splitlines r
        | EmptyString => []
        end
      else
        match splitlines r with
        | [] => [String c EmptyString]
        | l :: ls => String c l :: ls
        end
  end.

(** [s.split(sep, 1)[1]]: the text after the first [sep]; [None] stands for
    the IndexError of a string without [sep]. *)
Fixpoint split1_snd (sep : ascii) (s : string) : option string :=
  match s with
  | EmptyString => None
  | String c r => if (c =? sep)%char then Some r else split1_snd sep r
  end.

(** Truth value of a [str | None]: [None] and the empty string are false. *)
Definition truthy (o : option string) : bool :=
  match o with
  | Some s => negb (s =? EmptyString)
  | None => false
  end.

Definition opt_eqb (a b : option string) : bool :=
  match a, b with
  | Some x, Some y => (x =? y)
  | None, None => true
  | _, _ => false
  end.

(** Lines joined by line feeds, each line ended by one: the shape of the
    reports the examples below feed to the parsers. *)
Fixpoint unlines (ls : list string) : string :=
  match ls with
  | [] => EmptyString
  | l :: r => l ++ String LF (unlines r)
  end.

End Text.

Import Text.

(** ** The two regular expressions of the sink parser

    A small backtracking matcher for the constructs the patterns use.
    A position is the text before the cursor, reversed, and the text after
    it.  Literals are compared under [re.IGNORECASE]. *)

Module Regex.

Inductive regex : Type :=
| Lit (s : string)                     (* literal text *)
| SpaceStar                            (* \s* *)
| WordB                                (* \b *)
| NotBehind (width : nat) (r : regex)  (* (?<!r), r of fixed width *)
| Cat (r1 r2 : regex)
| Alt (r1 r2 : regex).

Definition pos : Type := (string * string)%type.

Definition eqb_nocase (p c : ascii) : bool :=
  (lower_char p =? lower_char c)%char.

Fixpoint lit (p : string) (b a : string) : list pos :=
  match p with
  | EmptyString => [(b, a)]
  | String pc p' =>
      match a with
      | String c a' => if eqb_nocase pc c then lit p' (String c b) a' else []
      | EmptyString => []
      end
  end.

Fixpoint space_star (b a : string) : list pos :=
  match a with
  | String c a' =>
      if isspace c then space_star (String c b) a' ++ [(b, a)] else [(b, a)]
  | EmptyString => [(b, a)]
  end.

Definition head_isword (s : string) : bool :=
  match s with
  | String c _ => isword c
  | EmptyString => false
  end.

Definition at_boundary (b a : string) : bool :=
  xorb (head_isword b) (head_isword a).

(** Step the cursor [n] characters back; [None] before the start. *)
Fixpoint back (n : nat) (b a : string) : option pos :=
  match n with
  | O => Some (b, a)
  | S n' =>
      match b with
      | String c b' => back n' b' (String c a)
      | EmptyString => None
      end
  end.

(** All positions at which a match of [r] that starts at [(b, a)] ends. *)
Fixpoint matches (r : regex) (b a : string) : list pos :=
  match r with
  | Lit p => lit p b a
  | SpaceStar => space_star b a
  | WordB => if at_boundary b a then [(b, a)] else []
  | NotBehind w r' =>
      match back w b a with
      | None => [(b, a)]
      | Some (b', a') =>
          match matches r' b' a' with
          | [] => [(b, a)]
          | _ :: _ => []
          end
      end
  | Cat r1 r2 => flat_map (fun p => matches r2 (fst p) (snd p)) (matches r1 b a)
  | Alt r1 r2 => matches r1 b a ++ matches r2 b a
  end.

Definition matches_at (r : regex) (b a : string) : bool :=
  match matches r b a with
  | [] => false
  | _ :: _ => true
  end.

Fixpoint search_from (r : regex) (b a : string) : bool :=
  matches_at r b a ||
  match a with
  | String c a' => search_from r (String c b) a'
  | EmptyString => false
  end.

(** [re.search(r, s, re.IGNORECASE) is not None] *)
Definition search (r : regex) (s : string) : bool :=
  search_from r EmptyString s.

(** [\bnot available\b|\bavailable:\s*no\b] *)
Definition UNAVAILABLE_RE : regex :=
  Alt (Cat WordB (Cat (Lit "not available") WordB))
      (Cat WordB (Cat (Lit "available:") (Cat SpaceStar (Cat (Lit "no") WordB)))).

(** [(?<!\bnot )\bavailable\)|\bavailable:\s*yes\b] *)
Definition AVAILABLE_RE : regex :=
  Alt (Cat (NotBehind 4 (Cat WordB (Lit "not "))) (Cat WordB (Lit "available)")))
      (Cat WordB (Cat (Lit "available:") (Cat SpaceStar (Cat (Lit "yes") WordB)))).

End Regex.

Import Regex.

(** ** Data model *)

(** A50 headset sink/source names. *)
Definition HEADSET_SINK : string :=
  "alsa_output.usb-Astro_Gaming_Astro_A50-00.stereo-game".
Definition HEADSET_SOURCE : string :=
  "alsa_input.usb-Astro_Gaming_Astro_A50-00.mono-chat".

Record SinkInfo : Type := mkSinkInfo {
  sink_name : string;
  sink_type : string;     (* hdmi, analog, usb, other *)
  is_available : bool
}.

Record SourceInfo : Type := mkSourceInfo {
  source_name : string;
  source_type : string    (* internal_mic, external_mic, monitor, usb, other *)
}.

Definition classify_sink (name : string) : string :=
  let name_lower := lower name in
  if contains "hdmi" name_lower then "hdmi"
  else if contains "analog" name_lower || contains "speaker" name_lower then "analog"
  else if contains "usb" name_lower then "usb"
  else "other".

Definition classify_source (name : string) : string :=
  let name_lower := lower name in
  if contains ".monitor" name_lower then "monitor"
  else if contains "usb" name_lower then "usb"
  else if contains "mic1" name_lower || contains "digital" name_lower then "internal_mic"
  else if contains "mic2" name_lower || contains "mic" name_lower
          || contains "analog" name_lower then "external_mic"
  else "other".

(** ** Endpoint inspector: [get_sinks_with_port_availability] *)

Module SinkParser.

(** The local variables of the parsing loop. *)
Record state : Type := mkState {
  sinks : list SinkInfo;
  current_name : option string;
  port_availabilities : list bool;
  in_ports_section : bool
}.

Definition init : state := mkState [] None [] false.

(** [any(l)] *)
Definition any (l : list bool) : bool := existsb (fun b => b) l.

Definition save_current_sink (st : state) : state :=
  match current_name st with
  | Some name =>
      if truthy (current_name st) then
        let sink_type := classify_sink name in
        let is_available :=
          if (sink_type =? "hdmi") then any (port_availabilities st) else true in
        mkState (sinks st ++ [mkSinkInfo name sink_type is_available])
                (current_name st) (port_availabilities st) (in_ports_section st)
      else st
  | None => st
  end.

(** The body of the last branch of the loop: what one availability line
    adds to [port_availabilities]. *)
Definition port_availability (stripped : string) : option bool :=
  if search UNAVAILABLE_RE stripped then Some false
  else if search AVAILABLE_RE stripped then Some true
  else None.

Definition step (st : state) (line : string) : state :=
  let stripped := strip line in
  if startswith stripped "Sink #" then
    let st' := save_current_sink st in
    mkState (sinks st') None [] false
  else if startswith stripped "Name:" then
    mkState (sinks st) (option_map strip (split1_snd ":" stripped))
            (port_availabilities st) (in_ports_section st)
  else if startswith stripped "Ports:" then
    mkState (sinks st) (current_name st) (port_availabilities st) true
  else if in_ports_section st
          && negb (startswith line (String TAB (String TAB EmptyString)))
          && startswith line (String TAB EmptyString) then
    if negb (startswith stripped "Port:") && contains ":" stripped then
      mkState (sinks st) (current_name st) (port_availabilities st) false
    else st
  else if in_ports_section st && contains "available" (lower stripped) then
    match port_availability stripped with
    | Some b =>
        mkState (sinks st) (current_name st) (port_availabilities st ++ [b])
                (in_ports_section st)
    | None => st
    end
  else st.

Definition run (lines : list string) : state :=
  save_current_sink (fold_left step lines init).

End SinkParser.

(** The result of the function on the standard output of
    [pactl list sinks]. *)
Definition get_sinks_with_port_availability (stdout : string) : list SinkInfo :=
  SinkParser.sinks (SinkParser.run (splitlines stdout)).

(** ** Endpoint inspector: [get_sources] *)

Module SourceParser.

Record state : Type := mkState {
  sources : list SourceInfo;
  current_name : option string
}.

Definition init : state := mkState [] None.

(** The test [if current_name:] and the append under it, which the function
    has once in the loop and once after it. *)
Definition save_current_source (st : state) : state :=
  match current_name st with
  | Some name =>
      if truthy (current_name st) then
        mkState (sources st ++ [mkSourceInfo name (classify_source name)])
                (current_name st)
      else st
  | None => st
  end.

Definition step (st : state) (line : string) : state :=
  let stripped := strip line in
  if startswith stripped "Source #" then
    mkState (sources (save_current_source st)) None
  else if startswith stripped "Name:" then
    mkState (sources st) (option_map strip (split1_snd ":" stripped))
  else st.

Definition run (lines : list string) : state :=
  save_current_source (fold_left step lines init).

End SourceParser.

Definition get_sources (stdout : string) : list SourceInfo :=
  SourceParser.sources (SourceParser.run (splitlines stdout)).

(** ** Fallback policy *)

(** [for x in l: if cond(x): return name(x)]; [None] when the loop ends
    without returning. *)
Fixpoint first_name {A : Type} (cond : A -> bool) (name : A -> string)
    (l : list A) : option string :=
  match l with
  | [] => None
  | x :: r => if cond x then Some (name x) else first_name cond name r
  end.

Definition not_headset_sink (s : SinkInfo) : bool :=
  negb (sink_name s =? HEADSET_SINK).
Definition hdmi_available (s : SinkInfo) : bool :=
  (sink_type s =? "hdmi") && is_available s.
Definition is_analog (s : SinkInfo) : bool :=
  (sink_type s =? "analog").
Definition available_not_usb (s : SinkInfo) : bool :=
  is_available s && negb (sink_type s =? "usb").

(** The body of [get_best_fallback_sink] below its first line, on the
    list the parser returned. *)
Definition best_fallback_sink (sinks : list SinkInfo) : option string :=
  let sinks := filter not_headset_sink sinks in
  match first_name hdmi_available sink_name sinks with
  | Some n => Some n
  | None =>
      match first_name is_analog sink_name sinks with
      | Some n => Some n
      | None => first_name available_not_usb sink_name sinks
      end
  end.

Definition get_best_fallback_sink (stdout : string) : option string :=
  best_fallback_sink (get_sinks_with_port_availability stdout).

Definition usable_source (s : SourceInfo) : bool :=
  negb (source_name s =? HEADSET_SOURCE) && negb (source_type s =? "monitor").
Definition is_internal_mic (s : SourceInfo) : bool :=
  (source_type s =? "internal_mic").
Definition is_external_mic (s : SourceInfo) : bool :=
  (source_type s =? "external_mic").
Definition not_usb_not_monitor (s : SourceInfo) : bool :=
  negb ((source_type s =? "usb") || (source_type s =? "monitor")).

Definition best_fallback_source (sources : list SourceInfo) : option string :=
  let sources := filter usable_source sources in
  match first_name is_internal_mic source_name sources with
  | Some n => Some n
  | None =>
      match first_name is_external_mic source_name sources with
      | Some n => Some n
      | None => first_name not_usb_not_monitor source_name sources
      end
  end.

Definition get_best_fallback_source (stdout : string) : option string :=
  best_fallback_source (get_sources stdout).

(** ** Effects: the calls the program makes and the exceptions that escape

    A computation returns a value or raises, and lists the external calls
    it made, in order. *)

Inductive event : Type :=
| UsbOpen                        (* Device() *)
| UsbGetStatus                   (* device.get_headset_status() *)
| UsbClose                       (* device.close() *)
| Sleep (seconds : Z)            (* time.sleep(seconds) *)
| Run (argv : list string).      (* subprocess.run(argv, ...) *)

Inductive exn : Type :=
| IndexError
| CalledProcessError.

Inductive res (A : Type) : Type :=
| Ok (a : A)
| Raise (e : exn).
Arguments Ok {A} a.
Arguments Raise {A} e.

Definition M (A : Type) : Type := (res A * list event)%type.

Definition ret {A : Type} (a : A) : M A := (Ok a, []).
Definition raise {A : Type} (e : exn) : M A := (Raise e, []).
Definition emit (e : event) : M unit := (Ok tt, [e]).

Definition bind {A B : Type} (m : M A) (k : A -> M B) : M B :=
  match m with
  | (Ok a, t) => let (r, t') := k a in (r, t ++ t')
  | (Raise e, t) => (Raise e, t)
  end.

Declare Scope prog_scope.
Delimit Scope prog_scope with prog.
Notation "x <- m ;; k" := (bind m (fun x => k))
  (at level 61, m at next level, right associativity) : prog_scope.
Notation "m ;;; k" := (bind m (fun _ => k))
  (at level 61, right associativity) : prog_scope.
Open Scope prog_scope.

Definition trace {A : Type} (m : M A) : list event := snd m.
Definition result {A : Type} (m : M A) : res A := fst m.

(** ** The outside world during one iteration of the main loop *)

(** Modelled from the spec: the status that the external transport
    library ([eh_fifty]) returns, a value-comparable pair of booleans. *)
Record HeadsetStatus : Type := mkStatus {
  is_on : bool;
  is_docked : bool
}.

(** Modelled from the spec: the ways a call of the external transport
    fails, as not-connected ([eh_fifty.DeviceNotConnected]), as a transport
    error ([usb.core.USBError]) or with any other exception. *)
Inductive usb_error : Type :=
| DeviceNotConnected
| USBError
| OtherError.

Inductive status_result : Type :=
| Status (s : HeadsetStatus)
| Fails (e : usb_error).

(** Modelled from the spec: the handle of the open transport. *)
Inductive Device : Type := TheDevice.

(** What the external calls of one iteration answer.  An iteration opens
    the device at most once, polls it at most once after the probe of
    [try_connect_device], lists sinks and sources at most once each, and
    sets at most one default per direction.  The programs [pactl],
    [pw-cli] and [wpctl] are taken to be installed, so that
    [subprocess.run] raises only where [check=True] meets a failed
    [wpctl]. *)
Record World : Type := mkWorld {
  usb_open : option usb_error;      (* Device(): None when it returns *)
  usb_probe : status_result;        (* the status call of try_connect_device *)
  usb_poll : status_result;         (* the status call of the main loop *)
  pactl_sinks : string;             (* stdout of pactl list sinks *)
  pactl_sources : string;           (* stdout of pactl list sources *)
  pw_nodes_sink : string;           (* stdout of pw-cli ls Node, for the sink *)
  pw_nodes_source : string;         (* the same, for the source *)
  wpctl_ok_sink : bool;             (* wpctl set-default exits with 0 *)
  wpctl_ok_source : bool
}.

(** ** Routing actuator *)

Definition node_name_line (node_name : string) : string :=
  "node.name = " ++ String QUOTE (node_name ++ String QUOTE EmptyString).

(** The loop of [get_node_id] over the lines of [pw-cli ls Node]. *)
Fixpoint get_node_id_loop (node_name : string) (current_id : option string)
    (lines : list string) : res (option string) :=
  match lines with
  | [] => Ok None
  | line :: rest =>
      let upd :=
        if startswith line (String TAB "id") then
          match nth_error (split line) 1 with
          | Some w => Ok (Some (rstrip_by (fun c => (c =? ",")%char) w))
          | None => Raise IndexError
          end
        else Ok current_id in
      match upd with
      | Raise e => Raise e
      | Ok current_id' =>
          if contains (node_name_line node_name) line then Ok current_id'
          else get_node_id_loop node_name current_id' rest
      end
  end.

Definition get_node_id (stdout : string) (node_name : string) : M (option string) :=
  (get_node_id_loop node_name None (splitlines stdout), [Run ["pw-cli"; "ls"; "Node"]]).

(** [set_default_sink] and [set_default_source] have the same body; the
    arguments are what this call's [pw-cli] prints and whether its [wpctl]
    succeeds ([check=True] raises otherwise). *)
Definition set_default (pw_stdout : string) (wpctl_ok : bool)
    (node_name : string) : M bool :=
  node_id <- get_node_id pw_stdout node_name ;;
  match node_id with
  | Some id =>
      if truthy node_id then
        emit (Run ["wpctl"; "set-default"; id]) ;;;
        if wpctl_ok then ret true else raise CalledProcessError
      else ret false
  | None => ret false
  end.

Definition set_default_sink (w : World) (node_name : string) : M bool :=
  set_default (pw_nodes_sink w) (wpctl_ok_sink w) node_name.

Definition set_default_source (w : World) (node_name : string) : M bool :=
  set_default (pw_nodes_source w) (wpctl_ok_source w) node_name.

Definition query_best_fallback_sink (w : World) : M (option string) :=
  emit (Run ["pactl"; "list"; "sinks"]) ;;;
  ret (get_best_fallback_sink (pactl_sinks w)).

Definition query_best_fallback_source (w : World) : M (option string) :=
  emit (Run ["pactl"; "list"; "sources"]) ;;;
  ret (get_best_fallback_source (pactl_sources w)).

(** ** Headset link: [try_connect_device] *)

Definition try_connect_device (w : World) : M (option Device) :=
  emit UsbOpen ;;;
  match usb_open w with
  | None =>
      emit UsbGetStatus ;;;
      match usb_probe w with
      | Status _ => ret (Some TheDevice)
      | Fails DeviceNotConnected => ret None
      | Fails USBError => emit UsbClose ;;; ret None
      | Fails OtherError => emit UsbClose ;;; ret None
      end
  | Some _ => ret None
  end.

(** ** Routing controller: the variables of [main] and one loop iteration *)

Record Memory : Type := mkMemory {
  device : option Device;
  last_status : option HeadsetStatus;
  last_fallback_sink : option string;
  last_fallback_source : option string;
  backoff_seconds : Z;
  poll_counter : Z
}.

Definition max_backoff : Z := 30.
Definition fallback_check_interval : Z := 10.

(** The values of the variables when the loop is entered. *)
Definition initial : Memory := mkMemory None None None None 2 0.

Definition set_device (d : option Device) (m : Memory) : Memory :=
  mkMemory d (last_status m) (last_fallback_sink m) (last_fallback_source m)
           (backoff_seconds m) (poll_counter m).
Definition set_last_status (s : option HeadsetStatus) (m : Memory) : Memory :=
  mkMemory (device m) s (last_fallback_sink m) (last_fallback_source m)
           (backoff_seconds m) (poll_counter m).
Definition set_last_fallback_sink (n : option string) (m : Memory) : Memory :=
  mkMemory (device m) (last_status m) n (last_fallback_source m)
           (backoff_seconds m) (poll_counter m).
Definition set_last_fallback_source (n : option string) (m : Memory) : Memory :=
  mkMemory (device m) (last_status m) (last_fallback_sink m) n
           (backoff_seconds m) (poll_counter m).
Definition set_backoff_seconds (b : Z) (m : Memory) : Memory :=
  mkMemory (device m) (last_status m) (last_fallback_sink m)
           (last_fallback_source m) b (poll_counter m).
Definition set_poll_counter (c : Z) (m : Memory) : Memory :=
  mkMemory (device m) (last_status m) (last_fallback_sink m)
           (last_fallback_source m) (backoff_seconds m) c.

Definition status_eqb (a b : HeadsetStatus) : bool :=
  Bool.eqb (is_on a) (is_on b) && Bool.eqb (is_docked a) (is_docked b).

(** [status != last_status], where [last_status] may be None. *)
Definition status_changed (status : HeadsetStatus) (last : option HeadsetStatus) : bool :=
  match last with
  | Some l => negb (status_eqb status l)
  | None => true
  end.

(** The sink half and the source half of [switch_to_fallback] and of the
    periodic check: assert the choice if there is one, and remember it. *)
Definition apply_fallback_sink (w : World) (fallback_sink : option string)
    (m : Memory) : M Memory :=
  match fallback_sink with
  | Some name =>
      if truthy fallback_sink then
        set_default_sink w name ;;;
        ret (set_last_fallback_sink fallback_sink m)
      else ret (set_last_fallback_sink None m)
  | None => ret (set_last_fallback_sink None m)
  end.

Definition apply_fallback_source (w : World) (fallback_source : option string)
    (m : Memory) : M Memory :=
  match fallback_source with
  | Some name =>
      if truthy fallback_source then
        set_default_source w name ;;;
        ret (set_last_fallback_source fallback_source m)
      else ret (set_last_fallback_source None m)
  | None => ret (set_last_fallback_source None m)
  end.

Definition switch_to_fallback (w : World) (m : Memory) : M Memory :=
  fallback_sink <- query_best_fallback_sink w ;;
  m1 <- apply_fallback_sink w fallback_sink m ;;
  fallback_source <- query_best_fallback_source w ;;
  apply_fallback_source w fallback_source m1.

(** The part of the loop body under [Handle headset status changes]. *)
Definition handle_status (w : World) (status : HeadsetStatus) (m : Memory) : M Memory :=
  let m := set_poll_counter (poll_counter m + 1) m in
  m' <-
    (if status_changed status (last_status m) then
       m1 <-
         (if is_on status && negb (is_docked status) then
            set_default_sink w HEADSET_SINK ;;;
            set_default_source w HEADSET_SOURCE ;;;
            ret (set_last_fallback_source None (set_last_fallback_sink None m))
          else if is_docked status then
            switch_to_fallback w m
          else ret m) ;;
       ret (set_poll_counter 0 (set_last_status (Some status) m1))
     else if is_docked status && (fallback_check_interval <=? poll_counter m)%Z then
       let m := set_poll_counter 0 m in
       fallback_sink <- query_best_fallback_sink w ;;
       fallback_source <- query_best_fallback_source w ;;
       if negb (opt_eqb fallback_sink (last_fallback_sink m))
          || negb (opt_eqb fallback_source (last_fallback_source m)) then
         m1 <-
           (if negb (opt_eqb fallback_sink (last_fallback_sink m))
            then apply_fallback_sink w fallback_sink m else ret m) ;;
         (if negb (opt_eqb fallback_source (last_fallback_source m1))
          then apply_fallback_source w fallback_source m1 else ret m1)
       else ret m
     else ret m) ;;
  emit (Sleep 1) ;;;
  ret m'.

(** The part under [STATE: Connected]: poll the device [d]. *)
Definition connected (w : World) (m : Memory) : M Memory :=
  emit UsbGetStatus ;;;
  match usb_poll w with
  | Fails DeviceNotConnected | Fails USBError =>
      emit UsbClose ;;;
      m1 <- switch_to_fallback w (set_last_status None (set_device None m)) ;;
      emit (Sleep (backoff_seconds m1)) ;;;
      ret m1
  | Fails OtherError =>
      emit UsbClose ;;;
      let m1 := set_last_status None (set_device None m) in
      emit (Sleep (backoff_seconds m1)) ;;;
      ret m1
  | Status status => handle_status w status m
  end.

(** One iteration of [while True]. *)
Definition iteration (w : World) (m : Memory) : M Memory :=
  match device m with
  | None =>
      d <- try_connect_device w ;;
      match d with
      | Some _ =>
          connected w (set_last_status None (set_backoff_seconds 2 (set_device d m)))
      | None =>
          emit (Sleep (backoff_seconds m)) ;;;
          ret (set_backoff_seconds (Z.min (backoff_seconds m * 2) max_backoff)
                 (set_device d m))
      end
  | Some _ => connected w m
  end.

(** Iterations in sequence, one world per iteration; an exception ends the
    run, as it ends [main]. *)
Fixpoint iterations (ws : list World) (m : Memory) : M Memory :=
  match ws with
  | [] => ret m
  | w :: rest => m' <- iteration w m ;; iterations rest m'
  end.

(** ** Vocabulary of the statements *)

(** [x] is the first element of [l], in order, that satisfies [P]. *)
Definition first_with {A : Type} (P : A -> Prop) (l : list A) (x : A) : Prop :=
  exists l1 l2, l = l1 ++ x :: l2 /\ Forall (fun y => ~ P y) l1 /\ P x.

(** No element of [l] satisfies [P]. *)
Definition none_with {A : Type} (P : A -> Prop) (l : list A) : Prop :=
  Forall (fun y => ~ P y) l.

(** The value of a [Name:] line of a report, if [line] is one. *)
Definition name_field (line : string) : option string :=
  let stripped := strip line in
  if startswith stripped "Name:" then option_map strip (split1_snd ":" stripped)
  else None.

(** The lines of a report that carry a name that is not empty. *)
Definition named_lines (stdout : string) : list string :=
  filter (fun line => truthy (name_field line)) (splitlines stdout).

(** The invariant of the sink parser's loop. *)
Module SinkParserInv.
Import SinkParser.

(** What [save_current_sink] appends. *)
Definition pending (st : state) : list SinkInfo :=
  match current_name st with
  | Some name =>
      if name =? EmptyString then []
      else
        [mkSinkInfo name (classify_sink name)
           (if classify_sink name =? "hdmi" then any (port_availabilities st)
            else true)]
  | None => []
  end.

(** Every sink saved so far, and the name being held, comes from a name
    line already read; and there are no more of them than such lines. *)
Record inv (seen : list string) (st : state) : Prop := mkInv {
  inv_sinks :
    Forall (fun s => sink_name s <> EmptyString /\
                     exists line, In line seen /\ name_field line = Some (sink_name s))
           (sinks st);
  inv_name :
    forall n, current_name st = Some n -> n <> EmptyString ->
              exists line, In line seen /\ name_field line = Some n;
  inv_count :
    List.length (sinks st) + (if truthy (current_name st) then 1 else 0)
    <= List.length (filter (fun line => truthy (name_field line)) seen)
}.

End SinkParserInv.

(** Every listed source has a name. *)
Definition all_named (l : list SourceInfo) : Prop :=
  Forall (fun s => source_name s <> EmptyString) l.






(** What [get_node_id] returns on a report it can read. *)
Definition node_id_of (pw_stdout node_name : string) : option string :=
  match get_node_id_loop node_name None (splitlines pw_stdout) with
  | Ok r => r
  | Raise _ => None
  end.

(** Every [id] line of a [pw-cli] report has a second word. *)
Definition ids_well_formed (pw_stdout : string) : bool :=
  forallb (fun line => negb (startswith line (String TAB "id"))
                       || (2 <=? List.length (split line))%nat)
          (splitlines pw_stdout).

(** The commands of this iteration do not fail: [wpctl] exits with 0 and
    the [pw-cli] reports are well formed. *)
Definition calm (w : World) : bool :=
  wpctl_ok_sink w && wpctl_ok_source w
  && ids_well_formed (pw_nodes_sink w) && ids_well_formed (pw_nodes_source w).

(** The calls of one [set_default_sink] or [set_default_source]:
    the lookup, and the assertion when the name resolves. *)
Definition assert_trace (pw_stdout node_name : string) : list event :=
  Run ["pw-cli"; "ls"; "Node"] ::
  match node_id_of pw_stdout node_name with
  | Some id =>
      if (id =? EmptyString) then [] else [Run ["wpctl"; "set-default"; id]]
  | None => []
  end.

(** The calls that assert a fallback choice, none when there is no choice. *)
Definition choice_trace (pw_stdout : string) (choice : option string) : list event :=
  match choice with
  | Some name => if (name =? EmptyString) then [] else assert_trace pw_stdout name
  | None => []
  end.

(** Fallback routing for both directions: sinks are listed and the output
    choice asserted, then sources are listed and the input choice asserted. *)
Definition fallback_trace (w : World) : list event :=
  Run ["pactl"; "list"; "sinks"] ::
  choice_trace (pw_nodes_sink w) (get_best_fallback_sink (pactl_sinks w)) ++
  Run ["pactl"; "list"; "sources"] ::
  choice_trace (pw_nodes_source w) (get_best_fallback_source (pactl_sources w)).

(** Routing to the headset's own sink and source. *)
Definition headset_trace (w : World) : list event :=
  assert_trace (pw_nodes_sink w) HEADSET_SINK ++
  assert_trace (pw_nodes_source w) HEADSET_SOURCE.

(** An event that queries or sets the audio routing. *)
Definition is_routing (e : event) : bool :=
  match e with
  | Run _ => true
  | _ => false
  end.

(** An event that lists the sinks, the first step of every fallback
    evaluation. *)
Definition is_fallback_query (e : event) : bool :=
  match e with
  | Run ["pactl"; "list"; "sinks"] => true
  | _ => false
  end.

(** [try_connect_device] returns None in this world. *)
Definition connect_fails (w : World) : bool :=
  match usb_open w, usb_probe w with
  | None, Status _ => false
  | _, _ => true
  end.

(** The calls of a failed [try_connect_device]. *)
Definition failed_connect_trace (w : World) : list event :=
  match usb_open w with
  | Some _ => [UsbOpen]
  | None =>
      match usb_probe w with
      | Fails DeviceNotConnected | Status _ => [UsbOpen; UsbGetStatus]
      | Fails _ => [UsbOpen; UsbGetStatus; UsbClose]
      end
  end.

(** The memories the loop can be in at the start of an iteration. *)
Definition reachable (m : Memory) : Prop :=
  exists ws, result (iterations ws initial) = Ok m.

(** The backoff lies between its floor and its ceiling. *)
Definition backoff_in_range (m : Memory) : Prop :=
  (2 <= backoff_seconds m <= max_backoff)%Z.

(** ** Sample reports and worlds *)

Definition tab (s : string) : string := String TAB s.

Definition ANALOG_SINK : string := "alsa_output.pci-0000_c3_00.6.analog-stereo".
Definition HDMI_SINK : string := "alsa_output.pci-0000_c3_00.1.HiFi__HDMI1__sink".
Definition MIC_SOURCE : string := "alsa_input.pci-0000_c3_00.6.HiFi__Mic1__source".

(** An hdmi sink whose only port is not available, then an analog sink. *)
Definition sample_sinks : string :=
  unlines
    [ "Sink #56";
      tab "State: SUSPENDED";
      tab ("Name: " ++ HDMI_SINK);
      tab "Ports:";
      tab (tab "[Out] HDMI1: HDMI / DisplayPort 1 Output (type: HDMI, priority: 1100, availability group: Legacy 1, not available)");
      tab "Active Port: [Out] HDMI1";
      "Sink #57";
      tab "State: SUSPENDED";
      tab ("Name: " ++ ANALOG_SINK);
      tab "Ports:";
      tab (tab "analog-output-speaker: Speakers (type: Speaker, priority: 10000, availability unknown)");
      tab "Active Port: analog-output-speaker"
    ].

Definition sample_sources : string :=
  unlines
    [ "Source #60";
      tab ("Name: " ++ ANALOG_SINK ++ ".monitor");
      "Source #61";
      tab ("Name: " ++ MIC_SOURCE)
    ].

Definition sample_nodes : string :=
  unlines
    [ tab "id 45, type PipeWire:Interface:Node/3";
      tab (tab (node_name_line ANALOG_SINK));
      tab "id 46, type PipeWire:Interface:Node/3";
      tab (tab (node_name_line MIC_SOURCE));
      tab "id 47, type PipeWire:Interface:Node/3";
      tab (tab (node_name_line HEADSET_SINK));
      tab "id 48, type PipeWire:Interface:Node/3";
      tab (tab (node_name_line HEADSET_SOURCE))
    ].

Definition ACTIVE : HeadsetStatus := mkStatus true false.
Definition DOCKED : HeadsetStatus := mkStatus true true.
Definition POWERED_OFF : HeadsetStatus := mkStatus false false.

(** A world in which the dock is plugged in and the poll answers [r]. *)
Definition world_polling (r : status_result) : World :=
  mkWorld None (Status ACTIVE) r sample_sinks sample_sources
          sample_nodes sample_nodes true true.

(** A world in which the dock is unplugged. *)
Definition world_unplugged : World :=
  mkWorld (Some DeviceNotConnected) (Fails DeviceNotConnected)
          (Fails DeviceNotConnected) sample_sinks sample_sources
          sample_nodes sample_nodes true true.

(** The memory of a linked controller that last saw the headset worn. *)
Definition memory_active : Memory :=
  mkMemory (Some TheDevice) (Some ACTIVE) None None 2 0.

(** A run in which the headset is docked, the dock is unplugged and
    plugged in again with the headset off. *)
Definition reconnect_run : list World :=
  [ world_polling (Status DOCKED);
    world_polling (Status DOCKED);
    world_polling (Fails DeviceNotConnected);
    world_unplugged;
    world_polling (Status POWERED_OFF) ].

Definition before_reconnect : Memory :=
  mkMemory None None (Some ANALOG_SINK) (Some MIC_SOURCE) 4 1.



(** A sink block without a name between two named ones, and one whose
    name is empty. *)
Definition nameless_block_sinks : string :=
  unlines
    [ "Sink #1";
      tab ("Name: " ++ ANALOG_SINK);
      "Sink #2";
      tab "State: RUNNING";
      tab "Description: no name here";
      "Sink #3";
      tab "Name: ";
      "Sink #4";
      tab ("Name: " ++ HDMI_SINK)
    ].

(** ** Display names: [format_node_name] *)

(** [s.split(sep)] for a separator that is not empty: the pieces between
    the occurrences of [sep], found from the left without overlap.
    [skip] counts the characters of an occurrence still to pass over. *)
Fixpoint split_by_from (sep : string) (skip : nat) (s : string) : list string :=
  match s with
  | EmptyString => [EmptyString]
  | String c r =>
      match skip with
      | S k => split_by_from sep k r
      | O =>
          if startswith s sep then
            EmptyString :: split_by_from sep (String.length sep - 1) r
          else
            match split_by_from sep 0 r with
            | p :: ps => String c p :: ps
            | [] => [String c EmptyString]
            end
      end
  end.

Definition split_by (sep s : string) : list string := split_by_from sep 0 s.

Definition format_node_name (node_name : string) : string :=
  let by_underscores :=
    if contains "__" node_name then
      let parts := split_by "__" node_name in
      if (2 <=? List.length parts)%nat then nth_error parts 1 else None
    else None in
  match by_underscores with
  | Some part => part
  | None =>
      if contains "." node_name then
        List.last (split_by "." node_name) EmptyString
      else node_name
  end.

(** ** Vocabulary of the further statements *)

(** No character of [s] ends a line. *)
Fixpoint no_linebreak (s : string) : bool :=
  match s with
  | EmptyString => true
  | String c r => negb (islinebreak c) && no_linebreak r
  end.

(** The line opens a sink block. *)
Definition is_sink_header (line : string) : bool :=
  startswith (strip line) "Sink #".

(** The line opens the ports section of a block. *)
Definition is_ports_header (line : string) : bool :=
  startswith (strip line) "Ports:".

(** The four kinds of a sink. *)
Definition sink_kind (k : string) : Prop :=
  k = "hdmi" \/ k = "analog" \/ k = "usb" \/ k = "other".

(** The five kinds of a source. *)
Definition source_kind (k : string) : Prop :=
  k = "monitor" \/ k = "usb" \/ k = "internal_mic" \/ k = "external_mic"
  \/ k = "other".

(** The backoff values the loop ever sleeps. *)
Definition backoff_step (b : Z) : Prop :=
  (b = 2 \/ b = 4 \/ b = 8 \/ b = 16 \/ b = 30)%Z.

(** The calls of an iteration that only polls and sleeps. *)
Definition idle_trace (ws : list World) : list event :=
  flat_map (fun _ => [UsbGetStatus; Sleep 1]) ws.

(** Invariants of the sink parser's loop used by the further statements. *)
Module SinkKindsInv.
Import SinkParser.

(** The kind of a saved sink is read off its name, and only an hdmi sink
    can be unavailable. *)
Definition well_kinded (l : list SinkInfo) : Prop :=
  Forall (fun s => sink_type s = classify_sink (sink_name s) /\
                   (sink_type s <> "hdmi" -> is_available s = true)) l.

(** Outside a ports section nothing is read: while no [Ports:] line has
    been seen in the block, the block has no reading. *)
Definition no_readings (st : state) : Prop :=
  in_ports_section st = false /\ port_availabilities st = [] /\
  Forall (fun s => sink_type s = "hdmi" -> is_available s = false) (sinks st).

(** Sinks already saved are a prefix that later lines never touch. *)
Definition with_prefix (p : list SinkInfo) (st : state) : state :=
  mkState (p ++ sinks st) (current_name st) (port_availabilities st)
          (in_ports_section st).

End SinkKindsInv.

(** The character that [get_node_id] strips from the end of an id. *)
Definition is_comma (c : ascii) : bool := (c =? ",")%char.

(** [s] ends with the character [c]. *)
Definition ends_with_char (s : string) (c : ascii) : Prop :=
  exists pre, s = (pre ++ String c EmptyString)%string.

(** The line names the node [node_name]. *)
Definition names_node (node_name line : string) : bool :=
  contains (node_name_line node_name) line.

(** The line is an id line of a [pw-cli] report. *)
Definition is_id_line (line : string) : bool :=
  startswith line (String TAB "id").

Definition PW_CLI : event := Run ["pw-cli"; "ls"; "Node"].
Definition WPCTL (id : string) : event := Run ["wpctl"; "set-default"; id].

(** What every reachable memory satisfies: without a device no status is
    remembered, the backoff is one of its five values, and the periodic
    counter is not negative. *)
Definition memory_ok (m : Memory) : Prop :=
  (device m = None -> last_status m = None)
  /\ backoff_step (backoff_seconds m)
  /\ (0 <= poll_counter m)%Z.

(** The memories that differ from [m] in the remembered fallbacks only. *)
Definition same_but_fallbacks (m m' : Memory) : Prop :=
  device m' = device m /\ last_status m' = last_status m
  /\ backoff_seconds m' = backoff_seconds m /\ poll_counter m' = poll_counter m.

(** An event that suspends the loop. *)
Definition is_sleep (e : event) : bool :=
  match e with
  | Sleep _ => true
  | _ => false
  end.

(** ** Port lines of a sink block *)









(** ** Pieces of a node name *)

(** [x] stands in [name] between the leftmost double underscore and the
    leftmost double underscore after that one, or the end of [name] when
    none follows. *)
Definition between_underscores (name x : string) : Prop :=
  exists pre post,
    name = (pre ++ "__" ++ x ++ post)%string
    /\ contains "__" (pre ++ "_") = false
    /\ ((post = EmptyString /\ contains "__" x = false)
        \/ (startswith post "__" = true /\ contains "__" (x ++ "_") = false)).

(** [x] is what follows the last dot of [name]. *)
Definition after_last_dot (name x : string) : Prop :=
  exists pre, name = (pre ++ "." ++ x)%string /\ contains "." x = false.

(** * Strings *)

Open Scope string_scope.



(** A line cannot open a sink block and carry a name at once. *)
Lemma sink_header_not_name (s : string) :
  startswith s "Sink #" = true -> startswith s "Name:" = false.
Proof.
  destruct s as [|c s]; [discriminate|].
  cbn [startswith].
  destruct (Ascii.eqb_spec "S" c) as [<-|]; [reflexivity|discriminate].
Qed.

Lemma opt_eqb_eq (a b : option string) : opt_eqb a b = true <-> a = b.
Proof.
  destruct a as [x|], b as [y|]; simpl; try (split; congruence).
  rewrite String.eqb_eq. split; congruence.
Qed.

(** * The regular expressions *)






















Open Scope list_scope.
(** * Sink parser *)

Module SinkParserFacts.
Import SinkParser SinkParserInv.

Lemma sinks_save (st : state) :
  sinks (save_current_sink st) = sinks st ++ pending st.
Proof.
  unfold save_current_sink, pending.
  destruct (current_name st) as [name|]; simpl; [|now rewrite app_nil_r].
  destruct (name =? EmptyString)%string; simpl; [now rewrite app_nil_r|reflexivity].
Qed.

Lemma pending_length (st : state) :
  List.length (pending st) = if truthy (current_name st) then 1 else 0.
Proof.
  unfold pending. destruct (current_name st) as [name|]; simpl; [|reflexivity].
  now destruct (name =? EmptyString)%string.
Qed.

(** The three shapes of a step. *)
Lemma step_header (st : state) (line : string) :
  startswith (strip line) "Sink #" = true ->
  step st line = mkState (sinks st ++ pending st) None [] false.
Proof. intros H. unfold step. rewrite H, sinks_save. reflexivity. Qed.

Lemma step_name (st : state) (line : string) :
  startswith (strip line) "Sink #" = false ->
  startswith (strip line) "Name:" = true ->
  step st line = mkState (sinks st) (name_field line)
                   (port_availabilities st) (in_ports_section st).
Proof.
  intros H1 H2. unfold step, name_field. rewrite H1, H2. reflexivity.
Qed.

Lemma step_other (st : state) (line : string) :
  startswith (strip line) "Sink #" = false ->
  startswith (strip line) "Name:" = false ->
  sinks (step st line) = sinks st /\
  current_name (step st line) = current_name st.
Proof.
  intros H1 H2. unfold step. rewrite H1, H2.
  repeat match goal with
         | |- context [if ?c then _ else _] => destruct c
         | |- context [match ?c with Some _ => _ | None => _ end] => destruct c
         end; split; reflexivity.
Qed.

(** An availability line inside the ports section adds its reading. *)
Lemma step_port_line (st : state) (line : string) (b : bool) :
  in_ports_section st = true ->
  startswith line (String TAB (String TAB EmptyString)) = true ->
  startswith (strip line) "Sink #" = false ->
  startswith (strip line) "Name:" = false ->
  startswith (strip line) "Ports:" = false ->
  contains "available" (lower (strip line)) = true ->
  port_availability (strip line) = Some b ->
  step st line = mkState (sinks st) (current_name st)
                   (port_availabilities st ++ [b]) true.
Proof.
  intros Hin Htt H1 H2 H3 Hav Hb. unfold step.
  rewrite H1, H2, H3, Hin, Htt, Hav, Hb. reflexivity.
Qed.

Lemma inv_init : inv [] init.
Proof. split; simpl; [constructor|discriminate|lia]. Qed.

Lemma Forall_seen_more (seen : list string) (line : string) (l : list SinkInfo) :
  Forall (fun s => sink_name s <> EmptyString /\
                   exists x, In x seen /\ name_field x = Some (sink_name s)) l ->
  Forall (fun s => sink_name s <> EmptyString /\
                   exists x, In x (seen ++ [line]) /\ name_field x = Some (sink_name s)) l.
Proof.
  apply Forall_impl. intros s (Hne & x & Hx & Hf). split; [exact Hne|].
  exists x. split; [apply in_or_app; now left|exact Hf].
Qed.

Lemma pending_inv (seen : list string) (st : state) :
  inv seen st ->
  Forall (fun s => sink_name s <> EmptyString /\
                   exists line, In line seen /\ name_field line = Some (sink_name s))
         (sinks st ++ pending st).
Proof.
  intros [Hs Hn _]. apply Forall_app. split; [exact Hs|].
  unfold pending. destruct (current_name st) as [name|]; [|constructor].
  destruct (String.eqb_spec name EmptyString) as [|Hne]; constructor; [|constructor].
  simpl. split; [exact Hne|]. now apply Hn.
Qed.

Lemma inv_step (seen : list string) (st : state) (line : string) :
  inv seen st -> inv (seen ++ [line]) (step st line).
Proof.
  intros Hinv.
  assert (Hcount := inv_count _ _ Hinv).
  destruct (startswith (strip line) "Sink #") eqn:H1.
  - (* a new block: the held sink is saved *)
    assert (Hnf : name_field line = None).
    { unfold name_field. now rewrite (sink_header_not_name _ H1). }
    rewrite (step_header _ _ H1). split; simpl.
    + apply Forall_seen_more, pending_inv, Hinv.
    + discriminate.
    + rewrite filter_app, !length_app, pending_length. simpl. rewrite Hnf. simpl. lia.
  - destruct (startswith (strip line) "Name:") eqn:H2.
    + (* a name line *)
      rewrite (step_name _ _ H1 H2). split; simpl.
      * apply Forall_seen_more, Hinv.
      * intros n Hn _. exists line. split; [|exact Hn].
        apply in_or_app. right. now left.
      * rewrite filter_app, length_app. simpl.
        destruct (truthy (name_field line)); simpl;
          destruct (truthy (current_name st)); lia.
    + (* any other line keeps the sinks and the name *)
      destruct (step_other st line H1 H2) as [Es En].
      split; rewrite ?Es, ?En.
      * apply Forall_seen_more, Hinv.
      * intros n Hn Hne. destruct (inv_name _ _ Hinv n Hn Hne) as (x & Hx & Hf).
        exists x. split; [apply in_or_app; now left|exact Hf].
      * rewrite filter_app, length_app. lia.
Qed.

Lemma inv_fold (lines seen : list string) (st : state) :
  inv seen st -> inv (seen ++ lines) (fold_left step lines st).
Proof.
  revert seen st. induction lines as [|line lines IH]; intros seen st Hinv; simpl.
  - now rewrite app_nil_r.
  - replace (seen ++ line :: lines) with ((seen ++ [line]) ++ lines)
      by (rewrite <- app_assoc; reflexivity).
    apply IH, inv_step, Hinv.
Qed.

Lemma inv_run (lines : list string) :
  Forall (fun s => sink_name s <> EmptyString /\
                   exists line, In line lines /\ name_field line = Some (sink_name s))
         (sinks (run lines)) /\
  List.length (sinks (run lines))
  <= List.length (filter (fun line => truthy (name_field line)) lines).
Proof.
  assert (Hinv := inv_fold lines [] init inv_init). simpl in Hinv.
  unfold run. rewrite sinks_save. split.
  - apply pending_inv, Hinv.
  - rewrite length_app, pending_length. apply (inv_count _ _ Hinv).
Qed.

End SinkParserFacts.

(** C10.  The sink parser emits a [SinkInfo] only for a block that holds a
    name that is not empty: every emitted sink has a non-empty name, which
    is the value of a [Name:] line of the report; there are no more sinks
    than there are such lines with a non-empty value, so a block without
    one adds no entry; an empty report yields the empty list; and in the
    sample report the block without a name and the block with an empty
    name leave no entry between the two named sinks. *)
Theorem sink_parser_emits_named_blocks_only (stdout : string) :
  Forall (fun s => sink_name s <> EmptyString /\
                   exists line, In line (splitlines stdout) /\
                                name_field line = Some (sink_name s))
         (get_sinks_with_port_availability stdout)
  /\ List.length (get_sinks_with_port_availability stdout)
     <= List.length (named_lines stdout)
  /\ get_sinks_with_port_availability EmptyString = []
  /\ get_sinks_with_port_availability nameless_block_sinks
     = [mkSinkInfo ANALOG_SINK "analog" true; mkSinkInfo HDMI_SINK "hdmi" false].
Proof.
  unfold get_sinks_with_port_availability, named_lines.
  destruct (SinkParserFacts.inv_run (splitlines stdout)) as [Hall Hlen].
  split; [exact Hall|]. split; [exact Hlen|].
  split; vm_compute; reflexivity.
Qed.

(** The names the fallback policy sees are never empty. *)
Lemma get_sinks_names_nonempty (stdout : string) (s : SinkInfo) :
  In s (get_sinks_with_port_availability stdout) -> sink_name s <> EmptyString.
Proof.
  intros Hin.
  destruct (SinkParserFacts.inv_run (splitlines stdout)) as [Hall _].
  rewrite Forall_forall in Hall. now apply Hall.
Qed.

(** * Availability lines *)

Section AvailabilityLines.
Import SinkParser.
Open Scope string_scope.







(** An hdmi block is available when one of its port lines read so. *)
Lemma save_hdmi_sink (st : state) (name : string) :
  current_name st = Some name -> name <> EmptyString ->
  classify_sink name = "hdmi" ->
  sinks (save_current_sink st)
  = (sinks st ++ [mkSinkInfo name "hdmi" (any (port_availabilities st))])%list.
Proof.
  intros Hn Hne Hk. rewrite SinkParserFacts.sinks_save.
  unfold SinkParserInv.pending. rewrite Hn.
  apply String.eqb_neq in Hne. rewrite Hne, Hk. reflexivity.
Qed.

End AvailabilityLines.


(** * Source parser *)

Module SourceParserFacts.
Import SourceParser.

Lemma sources_save (st : state) :
  sources (save_current_source st) =
  sources st ++
  match current_name st with
  | Some name =>
      if (name =? EmptyString)%string then []
      else [mkSourceInfo name (classify_source name)]
  | None => []
  end.
Proof.
  unfold save_current_source.
  destruct (current_name st) as [name|]; simpl; [|now rewrite app_nil_r].
  destruct (name =? EmptyString)%string; simpl; [now rewrite app_nil_r|reflexivity].
Qed.

Lemma named_save (st : state) :
  all_named (sources st) -> all_named (sources (save_current_source st)).
Proof.
  intros H. rewrite sources_save. apply Forall_app. split; [exact H|].
  destruct (current_name st) as [name|]; [|constructor].
  destruct (String.eqb_spec name EmptyString); constructor; [assumption|constructor].
Qed.

Lemma named_step (st : state) (line : string) :
  all_named (sources st) -> all_named (sources (step st line)).
Proof.
  intros H. unfold step.
  destruct (startswith (strip line) "Source #"); [now apply named_save|].
  now destruct (startswith (strip line) "Name:").
Qed.

Lemma named_fold (lines : list string) (st : state) :
  all_named (sources st) -> all_named (sources (fold_left step lines st)).
Proof.
  revert st. induction lines as [|line lines IH]; intros st H; simpl; [exact H|].
  now apply IH, named_step.
Qed.

End SourceParserFacts.

Lemma get_sources_names_nonempty (stdout : string) (s : SourceInfo) :
  In s (get_sources stdout) -> source_name s <> EmptyString.
Proof.
  intros Hin. unfold get_sources, SourceParser.run in Hin.
  assert (H : all_named
                (SourceParser.sources
                   (SourceParser.save_current_source
                      (fold_left SourceParser.step (splitlines stdout)
                         SourceParser.init)))).
  { apply SourceParserFacts.named_save, SourceParserFacts.named_fold. constructor. }
  unfold all_named in H. rewrite Forall_forall in H. now apply H.
Qed.
(** * Fallback policy *)

Section FirstName.
Context {A : Type} (cond : A -> bool) (P : A -> Prop) (name : A -> string).
Hypothesis cond_P : forall x, cond x = true <-> P x.

Lemma first_name_some (l : list A) (n : string) :
  first_name cond name l = Some n ->
  exists x, first_with P l x /\ name x = n.
Proof.
  induction l as [|y l IH]; simpl; [discriminate|].
  destruct (cond y) eqn:Hy.
  - intros [= <-]. exists y. split; [|reflexivity].
    exists [], l. repeat split; [constructor | now apply cond_P].
  - intros H. destruct (IH H) as (x & (l1 & l2 & -> & Hno & Hx) & Hn).
    exists x. split; [|exact Hn].
    exists (y :: l1), l2. repeat split; [|exact Hx].
    constructor; [|exact Hno].
    intros HP. apply cond_P in HP. congruence.
Qed.

Lemma first_name_none (l : list A) :
  first_name cond name l = None -> none_with P l.
Proof.
  induction l as [|y l IH]; simpl; [constructor|].
  destruct (cond y) eqn:Hy; [discriminate|].
  intros H. constructor; [|now apply IH].
  intros HP. apply cond_P in HP. congruence.
Qed.
End FirstName.

Lemma first_with_In {A : Type} (P : A -> Prop) (l : list A) (x : A) :
  first_with P l x -> In x l.
Proof.
  intros (l1 & l2 & -> & _). apply in_or_app. right. now left.
Qed.

Lemma hdmi_available_iff (s : SinkInfo) :
  hdmi_available s = true <-> sink_type s = "hdmi" /\ is_available s = true.
Proof.
  unfold hdmi_available. rewrite andb_true_iff, String.eqb_eq. reflexivity.
Qed.

Lemma is_analog_iff (s : SinkInfo) :
  is_analog s = true <-> sink_type s = "analog".
Proof. unfold is_analog. apply String.eqb_eq. Qed.

Lemma available_not_usb_iff (s : SinkInfo) :
  available_not_usb s = true <-> is_available s = true /\ sink_type s <> "usb".
Proof.
  unfold available_not_usb.
  rewrite andb_true_iff, negb_true_iff, String.eqb_neq. reflexivity.
Qed.

Lemma not_headset_sink_iff (s : SinkInfo) :
  not_headset_sink s = true <-> sink_name s <> HEADSET_SINK.
Proof.
  unfold not_headset_sink. rewrite negb_true_iff. apply String.eqb_neq.
Qed.

(** C4.  [best_fallback_sink] drops the sinks named [HEADSET_SINK] and, on
    what is left in enumeration order, returns the name of the first hdmi
    sink that is available; when there is none, of the first analog sink,
    whatever its availability; when there is none either, of the first
    sink that is available and not usb; and [None] when no sink passes any
    of the three rules.  A returned name is the name of a listed sink and
    is never [HEADSET_SINK]. *)
Theorem best_fallback_sink_priority (sinks : list SinkInfo) :
  let candidates :=
    filter (fun s => negb (sink_name s =? HEADSET_SINK)) sinks in
  let rule1 s := sink_type s = "hdmi" /\ is_available s = true in
  let rule2 s := sink_type s = "analog" in
  let rule3 s := is_available s = true /\ sink_type s <> "usb" in
  match best_fallback_sink sinks with
  | Some n =>
      n <> HEADSET_SINK /\
      exists s, In s sinks /\ sink_name s = n /\
        (first_with rule1 candidates s
         \/ (none_with rule1 candidates /\ first_with rule2 candidates s)
         \/ (none_with rule1 candidates /\ none_with rule2 candidates
             /\ first_with rule3 candidates s))
  | None =>
      none_with rule1 candidates /\ none_with rule2 candidates
      /\ none_with rule3 candidates
  end.
Proof.
  intros candidates rule1 rule2 rule3.
  assert (Hkeep : forall s, In s candidates ->
                            In s sinks /\ sink_name s <> HEADSET_SINK).
  { intros s Hs. apply filter_In in Hs. destruct Hs as [Hin Hk].
    split; [exact Hin|]. now apply not_headset_sink_iff. }
  assert (Hfound : forall R s n, first_with R candidates s -> sink_name s = n ->
                                 n <> HEADSET_SINK /\ In s sinks).
  { intros R s n Hf <-. apply first_with_In in Hf.
    destruct (Hkeep s Hf). now split. }
  unfold best_fallback_sink.
  change (filter not_headset_sink sinks) with candidates.
  destruct (first_name hdmi_available sink_name candidates) as [n|] eqn:H1.
  { apply (first_name_some _ rule1 _ hdmi_available_iff) in H1.
    destruct H1 as (s & Hf & Hn). destruct (Hfound _ _ _ Hf Hn).
    split; [assumption|]. exists s. tauto. }
  apply (first_name_none _ rule1 _ hdmi_available_iff) in H1.
  destruct (first_name is_analog sink_name candidates) as [n|] eqn:H2.
  { apply (first_name_some _ rule2 _ is_analog_iff) in H2.
    destruct H2 as (s & Hf & Hn). destruct (Hfound _ _ _ Hf Hn).
    split; [assumption|]. exists s. tauto. }
  apply (first_name_none _ rule2 _ is_analog_iff) in H2.
  destruct (first_name available_not_usb sink_name candidates) as [n|] eqn:H3.
  { apply (first_name_some _ rule3 _ available_not_usb_iff) in H3.
    destruct H3 as (s & Hf & Hn). destruct (Hfound _ _ _ Hf Hn).
    split; [assumption|]. exists s. tauto. }
  apply (first_name_none _ rule3 _ available_not_usb_iff) in H3.
  auto.
Qed.

(** * Fallback policy, sources *)

Lemma usable_source_iff (s : SourceInfo) :
  usable_source s = true <->
  source_name s <> HEADSET_SOURCE /\ source_type s <> "monitor".
Proof.
  unfold usable_source.
  rewrite andb_true_iff, !negb_true_iff, !String.eqb_neq. reflexivity.
Qed.

Lemma is_internal_mic_iff (s : SourceInfo) :
  is_internal_mic s = true <-> source_type s = "internal_mic".
Proof. unfold is_internal_mic. apply String.eqb_eq. Qed.

Lemma is_external_mic_iff (s : SourceInfo) :
  is_external_mic s = true <-> source_type s = "external_mic".
Proof. unfold is_external_mic. apply String.eqb_eq. Qed.

Lemma not_usb_not_monitor_iff (s : SourceInfo) :
  not_usb_not_monitor s = true <->
  source_type s <> "usb" /\ source_type s <> "monitor".
Proof.
  unfold not_usb_not_monitor.
  rewrite negb_true_iff, orb_false_iff, !String.eqb_neq. reflexivity.
Qed.

(** C5.  [best_fallback_source] drops the sources named [HEADSET_SOURCE]
    and the monitor sources and, on what is left in enumeration order,
    returns the name of the first internal_mic; when there is none, of the
    first external_mic; when there is none either, of the first source
    that is neither usb nor monitor; and [None] otherwise.  A returned
    name is the name of a listed source that is not a monitor, and is
    never [HEADSET_SOURCE]. *)
Theorem best_fallback_source_priority (sources : list SourceInfo) :
  let candidates :=
    filter (fun s => negb (source_name s =? HEADSET_SOURCE)
                     && negb (source_type s =? "monitor")) sources in
  let rule1 s := source_type s = "internal_mic" in
  let rule2 s := source_type s = "external_mic" in
  let rule3 s := source_type s <> "usb" /\ source_type s <> "monitor" in
  match best_fallback_source sources with
  | Some n =>
      n <> HEADSET_SOURCE /\
      exists s, In s sources /\ source_name s = n /\ source_type s <> "monitor" /\
        (first_with rule1 candidates s
         \/ (none_with rule1 candidates /\ first_with rule2 candidates s)
         \/ (none_with rule1 candidates /\ none_with rule2 candidates
             /\ first_with rule3 candidates s))
  | None =>
      none_with rule1 candidates /\ none_with rule2 candidates
      /\ none_with rule3 candidates
  end.
Proof.
  intros candidates rule1 rule2 rule3.
  assert (Hfound : forall R s n, first_with R candidates s -> source_name s = n ->
            n <> HEADSET_SOURCE /\ In s sources /\ source_type s <> "monitor").
  { intros R s n Hf <-. apply first_with_In in Hf.
    apply filter_In in Hf. destruct Hf as [Hin Hk].
    apply usable_source_iff in Hk. tauto. }
  unfold best_fallback_source.
  change (filter usable_source sources) with candidates.
  destruct (first_name is_internal_mic source_name candidates) as [n|] eqn:H1.
  { apply (first_name_some _ rule1 _ is_internal_mic_iff) in H1.
    destruct H1 as (s & Hf & Hn). destruct (Hfound _ _ _ Hf Hn) as (? & ? & ?).
    split; [assumption|]. exists s. tauto. }
  apply (first_name_none _ rule1 _ is_internal_mic_iff) in H1.
  destruct (first_name is_external_mic source_name candidates) as [n|] eqn:H2.
  { apply (first_name_some _ rule2 _ is_external_mic_iff) in H2.
    destruct H2 as (s & Hf & Hn). destruct (Hfound _ _ _ Hf Hn) as (? & ? & ?).
    split; [assumption|]. exists s. tauto. }
  apply (first_name_none _ rule2 _ is_external_mic_iff) in H2.
  destruct (first_name not_usb_not_monitor source_name candidates) as [n|] eqn:H3.
  { apply (first_name_some _ rule3 _ not_usb_not_monitor_iff) in H3.
    destruct H3 as (s & Hf & Hn). destruct (Hfound _ _ _ Hf Hn) as (? & ? & ?).
    split; [assumption|]. exists s. tauto. }
  apply (first_name_none _ rule3 _ not_usb_not_monitor_iff) in H3.
  auto.
Qed.

(** The policy never chooses an empty name from a parsed report. *)
Lemma first_name_In {A : Type} (cond : A -> bool) (name : A -> string)
    (l : list A) (n : string) :
  first_name cond name l = Some n -> exists x, In x l /\ name x = n.
Proof.
  induction l as [|y l IH]; simpl; [discriminate|].
  destruct (cond y).
  - intros [= <-]. exists y. auto.
  - intros H. destruct (IH H) as (x & Hx & Hn). exists x. auto.
Qed.

Lemma best_fallback_sink_In (sinks : list SinkInfo) (n : string) :
  best_fallback_sink sinks = Some n -> exists s, In s sinks /\ sink_name s = n.
Proof.
  unfold best_fallback_sink. intros H.
  assert (Hf : exists s, In s (filter not_headset_sink sinks) /\ sink_name s = n).
  { destruct (first_name hdmi_available _ _) eqn:H1;
      [injection H as ->; now apply first_name_In in H1|].
    destruct (first_name is_analog _ _) eqn:H2;
      [injection H as ->; now apply first_name_In in H2|].
    now apply first_name_In in H. }
  destruct Hf as (s & Hs & Hn). exists s. split; [|exact Hn].
  apply filter_In in Hs. tauto.
Qed.

Lemma best_fallback_source_In (sources : list SourceInfo) (n : string) :
  best_fallback_source sources = Some n ->
  exists s, In s sources /\ source_name s = n.
Proof.
  unfold best_fallback_source. intros H.
  assert (Hf : exists s, In s (filter usable_source sources) /\ source_name s = n).
  { destruct (first_name is_internal_mic _ _) eqn:H1;
      [injection H as ->; now apply first_name_In in H1|].
    destruct (first_name is_external_mic _ _) eqn:H2;
      [injection H as ->; now apply first_name_In in H2|].
    now apply first_name_In in H. }
  destruct Hf as (s & Hs & Hn). exists s. split; [|exact Hn].
  apply filter_In in Hs. tauto.
Qed.

Lemma get_best_fallback_sink_truthy (stdout : string) :
  get_best_fallback_sink stdout = None \/
  exists n, get_best_fallback_sink stdout = Some n /\ n <> EmptyString.
Proof.
  unfold get_best_fallback_sink.
  destruct (best_fallback_sink _) as [n|] eqn:H; [right|now left].
  apply best_fallback_sink_In in H. destruct H as (s & Hin & <-).
  exists (sink_name s). split; [reflexivity|].
  now apply (get_sinks_names_nonempty stdout).
Qed.

Lemma get_best_fallback_source_truthy (stdout : string) :
  get_best_fallback_source stdout = None \/
  exists n, get_best_fallback_source stdout = Some n /\ n <> EmptyString.
Proof.
  unfold get_best_fallback_source.
  destruct (best_fallback_source _) as [n|] eqn:H; [right|now left].
  apply best_fallback_source_In in H. destruct H as (s & Hin & <-).
  exists (source_name s). split; [reflexivity|].
  now apply (get_sources_names_nonempty stdout).
Qed.

(** * Routing actuator *)

Lemma bind_Ok {A B : Type} (a : A) (t : list event) (k : A -> M B) :
  bind (Ok a, t) k = (result (k a), t ++ trace (k a)).
Proof. unfold bind, result, trace. now destruct (k a). Qed.

Lemma bind_Raise {A B : Type} (e : exn) (t : list event) (k : A -> M B) :
  bind (Raise e, t) k = (Raise e, t).
Proof. reflexivity. Qed.

(** Run the binds whose first computation is known. *)
Ltac run_binds :=
  cbn beta iota delta [result trace fst snd];
  repeat (first [ rewrite bind_Ok | rewrite bind_Raise ];
          cbn beta iota delta [result trace fst snd]).

Lemma get_node_id_loop_returns (node_name : string) (lines : list string)
    (current_id : option string) :
  forallb (fun line => negb (startswith line (String TAB "id"))
                       || (2 <=? List.length (split line))%nat) lines = true ->
  exists r, get_node_id_loop node_name current_id lines = Ok r.
Proof.
  revert current_id. induction lines as [|line lines IH]; intros cur H.
  - now exists None.
  - cbn [forallb] in H. apply andb_true_iff in H. destruct H as [Hl Hr].
    cbn [get_node_id_loop].
    destruct (startswith line (String TAB "id")) eqn:Hid.
    + cbn [negb orb] in Hl. apply Nat.leb_le in Hl.
      destruct (nth_error (split line) 1) as [w|] eqn:Hn.
      * destruct (contains _ line); [eauto|apply IH, Hr].
      * apply nth_error_None in Hn. lia.
    + destruct (contains _ line); [eauto|apply IH, Hr].
Qed.

Lemma get_node_id_returns (pw_stdout node_name : string) :
  ids_well_formed pw_stdout = true ->
  get_node_id pw_stdout node_name
  = (Ok (node_id_of pw_stdout node_name), [Run ["pw-cli"; "ls"; "Node"]]).
Proof.
  intros H. unfold get_node_id, node_id_of.
  destruct (get_node_id_loop_returns node_name _ None H) as [r ->].
  reflexivity.
Qed.

Lemma set_default_returns (pw_stdout node_name : string) :
  ids_well_formed pw_stdout = true ->
  exists b, set_default pw_stdout true node_name
            = (Ok b, assert_trace pw_stdout node_name).
Proof.
  intros H. unfold set_default, assert_trace.
  rewrite (get_node_id_returns _ _ H), bind_Ok.
  destruct (node_id_of pw_stdout node_name) as [id|]; [|now exists false].
  simpl truthy. destruct (id =? EmptyString)%string; [now exists false|].
  now exists true.
Qed.

Lemma calm_parts (w : World) :
  calm w = true ->
  wpctl_ok_sink w = true /\ wpctl_ok_source w = true /\
  ids_well_formed (pw_nodes_sink w) = true /\
  ids_well_formed (pw_nodes_source w) = true.
Proof. unfold calm. rewrite !andb_true_iff. tauto. Qed.

Lemma set_default_sink_returns (w : World) (node_name : string) :
  calm w = true ->
  exists b, set_default_sink w node_name
            = (Ok b, assert_trace (pw_nodes_sink w) node_name).
Proof.
  intros H. apply calm_parts in H. destruct H as (Hw & _ & Hi & _).
  unfold set_default_sink. rewrite Hw. now apply set_default_returns.
Qed.

Lemma set_default_source_returns (w : World) (node_name : string) :
  calm w = true ->
  exists b, set_default_source w node_name
            = (Ok b, assert_trace (pw_nodes_source w) node_name).
Proof.
  intros H. apply calm_parts in H. destruct H as (_ & Hw & _ & Hi).
  unfold set_default_source. rewrite Hw. now apply set_default_returns.
Qed.

(** * Fallback routing *)

Lemma apply_fallback_sink_returns (w : World) (choice : option string) (m : Memory) :
  calm w = true ->
  (choice = None \/ exists n, choice = Some n /\ n <> EmptyString) ->
  apply_fallback_sink w choice m
  = (Ok (set_last_fallback_sink choice m), choice_trace (pw_nodes_sink w) choice).
Proof.
  intros Hc [->|(n & -> & Hn)]; [reflexivity|].
  unfold apply_fallback_sink, choice_trace.
  apply String.eqb_neq in Hn. simpl truthy. rewrite Hn. cbn [negb].
  destruct (set_default_sink_returns w n Hc) as [b ->].
  rewrite bind_Ok. cbn [ret result trace fst snd]. now rewrite app_nil_r.
Qed.

Lemma apply_fallback_source_returns (w : World) (choice : option string) (m : Memory) :
  calm w = true ->
  (choice = None \/ exists n, choice = Some n /\ n <> EmptyString) ->
  apply_fallback_source w choice m
  = (Ok (set_last_fallback_source choice m),
     choice_trace (pw_nodes_source w) choice).
Proof.
  intros Hc [->|(n & -> & Hn)]; [reflexivity|].
  unfold apply_fallback_source, choice_trace.
  apply String.eqb_neq in Hn. simpl truthy. rewrite Hn. cbn [negb].
  destruct (set_default_source_returns w n Hc) as [b ->].
  rewrite bind_Ok. cbn [ret result trace fst snd]. now rewrite app_nil_r.
Qed.

(** [switch_to_fallback] lists and asserts both directions and remembers
    both choices. *)
Lemma switch_to_fallback_returns (w : World) (m : Memory) :
  calm w = true ->
  switch_to_fallback w m
  = (Ok (mkMemory (device m) (last_status m)
           (get_best_fallback_sink (pactl_sinks w))
           (get_best_fallback_source (pactl_sources w))
           (backoff_seconds m) (poll_counter m)),
     fallback_trace w).
Proof.
  intros Hc. unfold switch_to_fallback, query_best_fallback_sink,
    query_best_fallback_source, emit, ret.
  run_binds.
  rewrite (apply_fallback_sink_returns w _ m Hc (get_best_fallback_sink_truthy _)).
  run_binds.
  rewrite (apply_fallback_source_returns w _ _ Hc (get_best_fallback_source_truthy _)).
  cbn [result trace fst snd]. unfold fallback_trace.
  rewrite ?app_nil_r, <- ?app_assoc. reflexivity.
Qed.

(** * One iteration, case by case *)

Lemma status_eqb_eq (a b : HeadsetStatus) : status_eqb a b = true <-> a = b.
Proof.
  destruct a as [a1 a2], b as [b1 b2]. unfold status_eqb. simpl.
  rewrite andb_true_iff, !Bool.eqb_true_iff. split; [intros [-> ->]|intros [= -> ->]]; auto.
Qed.

Lemma status_changed_iff (st : HeadsetStatus) (last : option HeadsetStatus) :
  status_changed st last = true <-> last <> Some st.
Proof.
  destruct last as [l|]; simpl; [|split; [discriminate|reflexivity]].
  rewrite negb_true_iff. split.
  - intros H [= ->]. rewrite (proj2 (status_eqb_eq st st) eq_refl) in H. discriminate.
  - intros H. destruct (status_eqb st l) eqn:E; [|reflexivity].
    apply status_eqb_eq in E. congruence.
Qed.

Lemma status_unchanged_iff (st : HeadsetStatus) (last : option HeadsetStatus) :
  status_changed st last = false <-> last = Some st.
Proof.
  destruct (status_changed st last) eqn:E.
  - apply status_changed_iff in E. split; [discriminate|contradiction].
  - split; [intros _|reflexivity].
    destruct last as [l|]; [|discriminate]. simpl in E.
    apply negb_false_iff, status_eqb_eq in E. congruence.
Qed.

(** The headset is worn: its own sink and source are asserted and the
    fallback memory is cleared. *)
Lemma handle_status_active (w : World) (st : HeadsetStatus) (m : Memory) :
  calm w = true -> last_status m <> Some st ->
  is_on st = true -> is_docked st = false ->
  handle_status w st m
  = (Ok (mkMemory (device m) (Some st) None None (backoff_seconds m) 0),
     headset_trace w ++ [Sleep 1]).
Proof.
  intros Hc Hch Hon Hdk. apply status_changed_iff in Hch.
  unfold handle_status. cbn [last_status set_poll_counter].
  rewrite Hch, Hon, Hdk. cbn [negb andb].
  destruct (set_default_sink_returns w HEADSET_SINK Hc) as [b1 ->].
  destruct (set_default_source_returns w HEADSET_SOURCE Hc) as [b2 ->].
  unfold emit, ret. run_binds. unfold headset_trace.
  rewrite ?app_nil_r, <- ?app_assoc. reflexivity.
Qed.

(** The headset went onto the dock: fallback routing, unconditionally. *)
Lemma handle_status_docked (w : World) (st : HeadsetStatus) (m : Memory) :
  calm w = true -> last_status m <> Some st -> is_docked st = true ->
  handle_status w st m
  = (Ok (mkMemory (device m) (Some st)
           (get_best_fallback_sink (pactl_sinks w))
           (get_best_fallback_source (pactl_sources w))
           (backoff_seconds m) 0),
     fallback_trace w ++ [Sleep 1]).
Proof.
  intros Hc Hch Hdk. apply status_changed_iff in Hch.
  unfold handle_status. cbn [last_status set_poll_counter].
  rewrite Hch, Hdk. rewrite andb_false_r.
  rewrite (switch_to_fallback_returns _ _ Hc).
  unfold emit, ret. run_binds.
  rewrite ?app_nil_r, <- ?app_assoc. reflexivity.
Qed.

(** The headset is off and not on the dock: nothing is routed. *)
Lemma handle_status_off (w : World) (st : HeadsetStatus) (m : Memory) :
  last_status m <> Some st -> is_on st = false -> is_docked st = false ->
  handle_status w st m
  = (Ok (mkMemory (device m) (Some st) (last_fallback_sink m)
           (last_fallback_source m) (backoff_seconds m) 0),
     [Sleep 1]).
Proof.
  intros Hch Hon Hdk. apply status_changed_iff in Hch.
  unfold handle_status. cbn [last_status set_poll_counter].
  rewrite Hch, Hon, Hdk. cbn [negb andb].
  unfold emit, ret. run_binds. reflexivity.
Qed.

(** The same status again, before the periodic check is due. *)
Lemma handle_status_unchanged (w : World) (st : HeadsetStatus) (m : Memory) :
  last_status m = Some st ->
  (is_docked st = false \/ poll_counter m + 1 < fallback_check_interval)%Z ->
  handle_status w st m
  = (Ok (mkMemory (device m) (last_status m) (last_fallback_sink m)
           (last_fallback_source m) (backoff_seconds m) (poll_counter m + 1)),
     [Sleep 1]).
Proof.
  intros Hsame Hnot. apply status_unchanged_iff in Hsame.
  unfold handle_status. cbn [last_status set_poll_counter poll_counter].
  rewrite Hsame.
  assert (E : is_docked st && (fallback_check_interval <=? poll_counter m + 1)%Z = false).
  { destruct Hnot as [->|Hlt]; [reflexivity|].
    apply andb_false_iff. right. now apply Z.leb_gt. }
  rewrite E. unfold emit, ret. run_binds. reflexivity.
Qed.

Lemma connected_status (w : World) (st : HeadsetStatus) (m : Memory) :
  usb_poll w = Status st ->
  connected w m = (result (handle_status w st m),
                   UsbGetStatus :: trace (handle_status w st m)).
Proof. intros H. unfold connected, emit. rewrite H. run_binds. reflexivity. Qed.

(** The poll fails as not-connected or with a transport error. *)
Lemma connected_lost (w : World) (e : usb_error) (m : Memory) :
  calm w = true -> usb_poll w = Fails e -> e <> OtherError ->
  connected w m
  = (Ok (mkMemory None None
           (get_best_fallback_sink (pactl_sinks w))
           (get_best_fallback_source (pactl_sources w))
           (backoff_seconds m) (poll_counter m)),
     [UsbGetStatus; UsbClose] ++ fallback_trace w ++ [Sleep (backoff_seconds m)]).
Proof.
  intros Hc Hp He. unfold connected, emit, ret. rewrite Hp.
  destruct e; [| |contradiction];
    run_binds; rewrite (switch_to_fallback_returns _ _ Hc); run_binds;
    cbn [backoff_seconds]; rewrite ?app_nil_r; reflexivity.
Qed.

(** The poll fails with an unexpected error. *)
Lemma connected_unexpected (w : World) (m : Memory) :
  usb_poll w = Fails OtherError ->
  connected w m
  = (Ok (mkMemory None None (last_fallback_sink m) (last_fallback_source m)
           (backoff_seconds m) (poll_counter m)),
     [UsbGetStatus; UsbClose; Sleep (backoff_seconds m)]).
Proof.
  intros Hp. unfold connected, emit, ret. rewrite Hp. run_binds. reflexivity.
Qed.

Lemma iteration_linked (w : World) (m : Memory) (d : Device) :
  device m = Some d -> iteration w m = connected w m.
Proof. intros H. unfold iteration. now rewrite H. Qed.

Lemma try_connect_fails (w : World) :
  connect_fails w = true ->
  try_connect_device w = (Ok None, failed_connect_trace w).
Proof.
  unfold connect_fails, try_connect_device, failed_connect_trace, emit, ret.
  destruct (usb_open w); [intros _; run_binds; reflexivity|].
  destruct (usb_probe w) as [s|[]]; [discriminate| | |]; intros _;
    run_binds; reflexivity.
Qed.

Lemma try_connect_succeeds (w : World) :
  connect_fails w = false ->
  try_connect_device w = (Ok (Some TheDevice), [UsbOpen; UsbGetStatus]).
Proof.
  unfold connect_fails, try_connect_device, emit, ret.
  destruct (usb_open w); [discriminate|].
  destruct (usb_probe w) as [s|[]]; [|discriminate..]; intros _;
    run_binds; reflexivity.
Qed.

(** No link and the connect fails: sleep the backoff, then double it. *)
Lemma iteration_connect_fails (w : World) (m : Memory) :
  device m = None -> connect_fails w = true ->
  iteration w m
  = (Ok (mkMemory None (last_status m) (last_fallback_sink m)
           (last_fallback_source m)
           (Z.min (backoff_seconds m * 2) max_backoff) (poll_counter m)),
     failed_connect_trace w ++ [Sleep (backoff_seconds m)]).
Proof.
  intros Hd Hf. unfold iteration. rewrite Hd, (try_connect_fails _ Hf).
  unfold emit, ret. run_binds. rewrite ?app_nil_r. reflexivity.
Qed.

(** No link and the connect succeeds: the rest of the iteration runs on a
    memory whose backoff and last status are reset. *)
Lemma iteration_connect_succeeds (w : World) (m : Memory) :
  device m = None -> connect_fails w = false ->
  let linked := mkMemory (Some TheDevice) None (last_fallback_sink m)
                  (last_fallback_source m) 2 (poll_counter m) in
  iteration w m = (result (connected w linked),
                   [UsbOpen; UsbGetStatus] ++ trace (connected w linked)).
Proof.
  intros Hd Hs linked. unfold iteration. rewrite Hd, (try_connect_succeeds _ Hs).
  run_binds. reflexivity.
Qed.

(** * What every iteration keeps *)

Lemma bind_result_Ok {A B : Type} (x : M A) (k : A -> M B) (b : B) :
  result (bind x k) = Ok b ->
  exists a, result x = Ok a /\ result (k a) = Ok b.
Proof.
  destruct x as [[a|e] t]; [|discriminate].
  rewrite bind_Ok. cbn [result fst]. intros H. now exists a.
Qed.

Lemma result_ret {A : Type} (a b : A) : result (ret a) = Ok b -> a = b.
Proof. now intros [= ->]. Qed.

Lemma apply_fallback_sink_backoff (w : World) (c : option string) (m m' : Memory) :
  result (apply_fallback_sink w c m) = Ok m' ->
  backoff_seconds m' = backoff_seconds m.
Proof.
  unfold apply_fallback_sink. destruct c as [n|].
  - destruct (truthy (Some n)).
    + intros H. apply bind_result_Ok in H. destruct H as (b & _ & H).
      apply result_ret in H. now subst.
    + intros H. apply result_ret in H. now subst.
  - intros H. apply result_ret in H. now subst.
Qed.

Lemma apply_fallback_source_backoff (w : World) (c : option string) (m m' : Memory) :
  result (apply_fallback_source w c m) = Ok m' ->
  backoff_seconds m' = backoff_seconds m.
Proof.
  unfold apply_fallback_source. destruct c as [n|].
  - destruct (truthy (Some n)).
    + intros H. apply bind_result_Ok in H. destruct H as (b & _ & H).
      apply result_ret in H. now subst.
    + intros H. apply result_ret in H. now subst.
  - intros H. apply result_ret in H. now subst.
Qed.

Lemma switch_to_fallback_backoff (w : World) (m m' : Memory) :
  result (switch_to_fallback w m) = Ok m' ->
  backoff_seconds m' = backoff_seconds m.
Proof.
  unfold switch_to_fallback. intros H.
  apply bind_result_Ok in H. destruct H as (c1 & _ & H).
  apply bind_result_Ok in H. destruct H as (m1 & H1 & H).
  apply bind_result_Ok in H. destruct H as (c2 & _ & H).
  apply apply_fallback_source_backoff in H.
  apply apply_fallback_sink_backoff in H1. congruence.
Qed.

Lemma handle_status_backoff (w : World) (st : HeadsetStatus) (m m' : Memory) :
  result (handle_status w st m) = Ok m' ->
  backoff_seconds m' = backoff_seconds m.
Proof.
  unfold handle_status. intros H.
  apply bind_result_Ok in H. destruct H as (m2 & H & H').
  apply bind_result_Ok in H'. destruct H' as (u & _ & H').
  apply result_ret in H'. subst m2.
  set (m0 := set_poll_counter (poll_counter m + 1) m) in *.
  assert (E0 : backoff_seconds m0 = backoff_seconds m) by reflexivity.
  rewrite <- E0. clearbody m0. clear E0.
  destruct (status_changed st (last_status m0)).
  - apply bind_result_Ok in H. destruct H as (m1 & H & H').
    apply result_ret in H'. subst m'. cbn [backoff_seconds set_poll_counter set_last_status].
    destruct (is_on st && negb (is_docked st)).
    + apply bind_result_Ok in H. destruct H as (b1 & _ & H).
      apply bind_result_Ok in H. destruct H as (b2 & _ & H).
      apply result_ret in H. now subst m1.
    + destruct (is_docked st).
      * now apply switch_to_fallback_backoff in H.
      * apply result_ret in H. now subst.
  - destruct (is_docked st && (fallback_check_interval <=? poll_counter m0)%Z).
    + apply bind_result_Ok in H. destruct H as (c1 & _ & H).
      apply bind_result_Ok in H. destruct H as (c2 & _ & H).
      set (mz := set_poll_counter 0 m0) in *.
      assert (Ez : backoff_seconds mz = backoff_seconds m0) by reflexivity.
      rewrite <- Ez. clearbody mz. clear Ez.
      destruct (negb (opt_eqb c1 (last_fallback_sink mz))
                || negb (opt_eqb c2 (last_fallback_source mz))).
      * apply bind_result_Ok in H. destruct H as (m1 & H1 & H).
        assert (E1 : backoff_seconds m1 = backoff_seconds mz).
        { destruct (negb (opt_eqb c1 (last_fallback_sink mz))).
          - now apply apply_fallback_sink_backoff in H1.
          - apply result_ret in H1. now subst. }
        rewrite <- E1.
        destruct (negb (opt_eqb c2 (last_fallback_source m1))).
        -- now apply apply_fallback_source_backoff in H.
        -- apply result_ret in H. now subst.
      * apply result_ret in H. now subst.
    + apply result_ret in H. now subst.
Qed.

Lemma connected_backoff (w : World) (m m' : Memory) :
  result (connected w m) = Ok m' ->
  backoff_seconds m' = backoff_seconds m.
Proof.
  unfold connected. intros H.
  apply bind_result_Ok in H. destruct H as (u & _ & H).
  destruct (usb_poll w) as [st|[]].
  - now apply handle_status_backoff in H.
  - apply bind_result_Ok in H. destruct H as (u1 & _ & H).
    apply bind_result_Ok in H. destruct H as (m1 & H1 & H).
    apply bind_result_Ok in H. destruct H as (u2 & _ & H).
    apply result_ret in H. subst m1.
    now apply switch_to_fallback_backoff in H1.
  - apply bind_result_Ok in H. destruct H as (u1 & _ & H).
    apply bind_result_Ok in H. destruct H as (m1 & H1 & H).
    apply bind_result_Ok in H. destruct H as (u2 & _ & H).
    apply result_ret in H. subst m1.
    now apply switch_to_fallback_backoff in H1.
  - apply bind_result_Ok in H. destruct H as (u1 & _ & H).
    apply bind_result_Ok in H. destruct H as (u2 & _ & H).
    apply result_ret in H. now subst.
Qed.

Lemma iteration_backoff_in_range (w : World) (m m' : Memory) :
  backoff_in_range m -> result (iteration w m) = Ok m' -> backoff_in_range m'.
Proof.
  unfold backoff_in_range, max_backoff. intros Hr H.
  destruct (device m) as [d|] eqn:Hd.
  - rewrite (iteration_linked _ _ _ Hd) in H.
    apply connected_backoff in H. lia.
  - destruct (connect_fails w) eqn:Hf.
    + rewrite (iteration_connect_fails _ _ Hd Hf) in H.
      injection H as <-. cbn [backoff_seconds]. unfold max_backoff. lia.
    + rewrite (iteration_connect_succeeds _ _ Hd Hf) in H. cbn [result fst] in H.
      apply connected_backoff in H. cbn [backoff_seconds] in H. lia.
Qed.

Lemma iterations_backoff_in_range (ws : list World) (m m' : Memory) :
  backoff_in_range m -> result (iterations ws m) = Ok m' -> backoff_in_range m'.
Proof.
  revert m. induction ws as [|w ws IH]; intros m Hr H; simpl in H.
  - apply result_ret in H. now subst.
  - apply bind_result_Ok in H. destruct H as (m1 & H1 & H).
    apply (IH m1); [|exact H]. now apply (iteration_backoff_in_range w m).
Qed.

Lemma reachable_backoff_in_range (m : Memory) :
  reachable m -> backoff_in_range m.
Proof.
  intros [ws H]. apply (iterations_backoff_in_range ws initial); [|exact H].
  unfold backoff_in_range, max_backoff. simpl. lia.
Qed.

(** The periodic check: both choices are recomputed, a direction is
    asserted only when its choice differs from the remembered one, and the
    memory holds both choices afterwards. *)
Lemma handle_status_periodic (w : World) (st : HeadsetStatus) (m : Memory) :
  calm w = true -> last_status m = Some st -> is_docked st = true ->
  (fallback_check_interval <= poll_counter m + 1)%Z ->
  let sink := get_best_fallback_sink (pactl_sinks w) in
  let source := get_best_fallback_source (pactl_sources w) in
  handle_status w st m
  = (Ok (mkMemory (device m) (last_status m) sink source (backoff_seconds m) 0),
     [Run ["pactl"; "list"; "sinks"]; Run ["pactl"; "list"; "sources"]]
     ++ (if opt_eqb sink (last_fallback_sink m) then []
         else choice_trace (pw_nodes_sink w) sink)
     ++ (if opt_eqb source (last_fallback_source m) then []
         else choice_trace (pw_nodes_source w) source)
     ++ [Sleep 1]).
Proof.
  intros Hc Hsame Hdk Hdue sink source.
  apply status_unchanged_iff in Hsame. apply Z.leb_le in Hdue.
  unfold handle_status. cbn [last_status set_poll_counter poll_counter].
  rewrite Hsame, Hdk, Hdue. cbn [andb].
  unfold query_best_fallback_sink, query_best_fallback_source, emit, ret.
  run_binds. fold sink source.
  cbn [last_fallback_sink last_fallback_source set_poll_counter].
  destruct (opt_eqb sink (last_fallback_sink m)) eqn:E1;
    destruct (opt_eqb source (last_fallback_source m)) eqn:E2; cbn [negb orb].
  - apply opt_eqb_eq in E1, E2. run_binds. rewrite E1, E2. reflexivity.
  - apply opt_eqb_eq in E1. run_binds.
    cbn [last_fallback_source set_poll_counter]. rewrite E2. cbn [negb].
    rewrite (apply_fallback_source_returns w source _ Hc (get_best_fallback_source_truthy _)).
    run_binds. fold source. rewrite E1.
    rewrite ?app_nil_r, <- ?app_assoc. reflexivity.
  - rewrite (apply_fallback_sink_returns w sink _ Hc (get_best_fallback_sink_truthy _)).
    run_binds. cbn [last_fallback_source set_last_fallback_sink set_poll_counter].
    rewrite E2. cbn [negb]. apply opt_eqb_eq in E2.
    run_binds. fold sink. rewrite E2.
    rewrite ?app_nil_r, <- ?app_assoc. reflexivity.
  - rewrite (apply_fallback_sink_returns w sink _ Hc (get_best_fallback_sink_truthy _)).
    run_binds. cbn [last_fallback_source set_last_fallback_sink set_poll_counter].
    rewrite E2. cbn [negb].
    rewrite (apply_fallback_source_returns w source _ Hc (get_best_fallback_source_truthy _)).
    run_binds. fold sink source.
    rewrite ?app_nil_r, <- ?app_assoc. reflexivity.
Qed.

(** * The control loop *)

(** C1.  What an iteration does when the poll of a linked controller
    fails.  As not-connected or with a transport error: the link is closed,
    the state cleared, fallback routing asserted for both directions, and
    the backoff slept.  With an unexpected error: the link is closed, the
    state cleared and the backoff slept, and no routing call is made. *)
Theorem poll_failure_by_kind (w : World) (m : Memory) (d : Device) (e : usb_error) :
  device m = Some d -> usb_poll w = Fails e -> calm w = true ->
  iteration w m =
  match e with
  | OtherError =>
      (Ok (mkMemory None None (last_fallback_sink m) (last_fallback_source m)
             (backoff_seconds m) (poll_counter m)),
       [UsbGetStatus; UsbClose; Sleep (backoff_seconds m)])
  | _ =>
      (Ok (mkMemory None None
             (get_best_fallback_sink (pactl_sinks w))
             (get_best_fallback_source (pactl_sources w))
             (backoff_seconds m) (poll_counter m)),
       [UsbGetStatus; UsbClose] ++ fallback_trace w
       ++ [Sleep (backoff_seconds m)])
  end.
Proof.
  intros Hd Hp Hc. rewrite (iteration_linked _ _ _ Hd).
  destruct e.
  - now apply connected_lost with (e := DeviceNotConnected).
  - now apply connected_lost with (e := USBError).
  - now apply connected_unexpected.
Qed.

(** The headset is worn and the poll fails with an unexpected error: the
    audio stays routed to the headset. *)
Lemma poll_failure_by_kind_witness :
  iteration (world_polling (Fails OtherError)) memory_active
  = (Ok (mkMemory None None None None 2 0), [UsbGetStatus; UsbClose; Sleep 2]).
Proof.
  exact (poll_failure_by_kind (world_polling (Fails OtherError)) memory_active
           TheDevice OtherError eq_refl eq_refl eq_refl).
Defined.

(** C2, as the code has it.  For a linked controller in a calm world:
    a change to the worn state clears both remembered names; a change to a
    docked state recomputes and asserts both fallbacks whatever the
    remembered names are, and remembers the two choices; the loss of the
    link as not-connected or with a transport error does the same; and the
    periodic check leaves the memory equal to the two choices it
    computed. *)
Theorem fallback_memory (w : World) (m : Memory) (d : Device) :
  device m = Some d -> calm w = true ->
  let sink := get_best_fallback_sink (pactl_sinks w) in
  let source := get_best_fallback_source (pactl_sources w) in
  (forall st, usb_poll w = Status st -> last_status m <> Some st ->
              is_on st = true -> is_docked st = false ->
      iteration w m
      = (Ok (mkMemory (Some d) (Some st) None None (backoff_seconds m) 0),
         UsbGetStatus :: headset_trace w ++ [Sleep 1]))
  /\ (forall st, usb_poll w = Status st -> last_status m <> Some st ->
                 is_docked st = true ->
      iteration w m
      = (Ok (mkMemory (Some d) (Some st) sink source (backoff_seconds m) 0),
         UsbGetStatus :: fallback_trace w ++ [Sleep 1]))
  /\ (forall e, usb_poll w = Fails e -> e <> OtherError ->
      iteration w m
      = (Ok (mkMemory None None sink source (backoff_seconds m) (poll_counter m)),
         [UsbGetStatus; UsbClose] ++ fallback_trace w
         ++ [Sleep (backoff_seconds m)]))
  /\ (forall st, usb_poll w = Status st -> last_status m = Some st ->
                 is_docked st = true ->
                 (fallback_check_interval <= poll_counter m + 1)%Z ->
      exists t,
        iteration w m
        = (Ok (mkMemory (Some d) (Some st) sink source (backoff_seconds m) 0), t)).
Proof.
  intros Hd Hc sink source. rewrite (iteration_linked _ _ _ Hd).
  repeat split.
  - intros st Hp Hch Hon Hdk. rewrite (connected_status _ _ _ Hp).
    rewrite (handle_status_active _ _ _ Hc Hch Hon Hdk), Hd. reflexivity.
  - intros st Hp Hch Hdk. rewrite (connected_status _ _ _ Hp).
    rewrite (handle_status_docked _ _ _ Hc Hch Hdk), Hd. reflexivity.
  - intros e Hp He. now apply connected_lost with (e := e).
  - intros st Hp Hsame Hdk Hdue. rewrite (connected_status _ _ _ Hp).
    rewrite (handle_status_periodic _ _ _ Hc Hsame Hdk Hdue), Hd, Hsame.
    cbn [result trace fst snd]. eexists. reflexivity.
Qed.

(** The dock is unplugged while the headset is worn. *)
Lemma fallback_memory_witness :
  iteration (world_polling (Fails DeviceNotConnected)) memory_active
  = (Ok (mkMemory None None (Some ANALOG_SINK) (Some MIC_SOURCE) 2 0),
     [UsbGetStatus; UsbClose;
      Run ["pactl"; "list"; "sinks"]; Run ["pw-cli"; "ls"; "Node"];
      Run ["wpctl"; "set-default"; "45"];
      Run ["pactl"; "list"; "sources"]; Run ["pw-cli"; "ls"; "Node"];
      Run ["wpctl"; "set-default"; "46"]; Sleep 2]).
Proof.
  destruct (fallback_memory (world_polling (Fails DeviceNotConnected))
              memory_active TheDevice eq_refl eq_refl) as (_ & _ & H & _).
  rewrite (H DeviceNotConnected eq_refl); [reflexivity|discriminate].
Defined.

(** C2 as stated fails where the link is lost: the remembered names are
    not cleared, they are set to the fallbacks just asserted. *)
Lemma link_loss_remembers_fallback :
  exists m',
    result (iteration (world_polling (Fails DeviceNotConnected)) memory_active)
    = Ok m'
    /\ device m' = None
    /\ last_fallback_sink m' = Some ANALOG_SINK
    /\ last_fallback_source m' = Some MIC_SOURCE
    /\ last_fallback_sink m' <> None.
Proof.
  eexists. split; [vm_compute; reflexivity|].
  repeat split; discriminate.
Qed.

(** C3, as the code has it.  When a controller without a link connects,
    the rest of the iteration runs on a memory in which the backoff is at
    its floor and the last status is cleared; the remembered fallback
    names and the periodic counter keep their values. *)
Theorem reconnect_resets_backoff_and_status (w : World) (m : Memory) :
  device m = None -> connect_fails w = false ->
  let linked := mkMemory (Some TheDevice) None (last_fallback_sink m)
                  (last_fallback_source m) 2 (poll_counter m) in
  iteration w m = (result (connected w linked),
                   [UsbOpen; UsbGetStatus] ++ trace (connected w linked)).
Proof. exact (iteration_connect_succeeds w m). Qed.

Lemma reconnect_resets_backoff_and_status_witness :
  iteration (world_polling (Status POWERED_OFF)) before_reconnect
  = (Ok (mkMemory (Some TheDevice) (Some POWERED_OFF)
           (Some ANALOG_SINK) (Some MIC_SOURCE) 2 0),
     [UsbOpen; UsbGetStatus; UsbGetStatus; Sleep 1]).
Proof.
  rewrite (reconnect_resets_backoff_and_status
             (world_polling (Status POWERED_OFF)) before_reconnect
             eq_refl eq_refl).
  reflexivity.
Defined.

(** C3 as stated fails: after the reconnect that ends this run the
    remembered fallback names are the ones asserted before the link was
    lost, not the initial [None]. *)
Lemma reconnect_keeps_fallback_memory :
  result (iterations (firstn 4 reconnect_run) initial) = Ok before_reconnect
  /\ result (iterations reconnect_run initial)
     = Ok (mkMemory (Some TheDevice) (Some POWERED_OFF)
             (Some ANALOG_SINK) (Some MIC_SOURCE) 2 0)
  /\ Some ANALOG_SINK <> last_fallback_sink initial.
Proof.
  split; [vm_compute; reflexivity|].
  split; [vm_compute; reflexivity|discriminate].
Qed.

Lemma no_query_in_assert_trace (pw_stdout node_name : string) :
  filter is_fallback_query (assert_trace pw_stdout node_name) = [].
Proof.
  unfold assert_trace. destruct (node_id_of pw_stdout node_name) as [id|];
    [destruct (id =? EmptyString)%string|]; reflexivity.
Qed.

Lemma no_query_in_choice_trace (pw_stdout : string) (choice : option string) :
  filter is_fallback_query (choice_trace pw_stdout choice) = [].
Proof.
  unfold choice_trace. destruct choice as [n|]; [|reflexivity].
  destruct (n =? EmptyString)%string; [reflexivity|apply no_query_in_assert_trace].
Qed.

Lemma one_query_in_fallback_trace (w : World) :
  filter is_fallback_query (fallback_trace w) = [Run ["pactl"; "list"; "sinks"]].
Proof.
  unfold fallback_trace. cbn [filter is_fallback_query].
  change (is_fallback_query (Run ["pactl"; "list"; "sinks"])) with true.
  cbn iota. rewrite filter_app, no_query_in_choice_trace.
  cbn [app filter]. change (is_fallback_query (Run ["pactl"; "list"; "sources"])) with false.
  cbn iota. now rewrite no_query_in_choice_trace.
Qed.

Lemma no_query_in_headset_trace (w : World) :
  filter is_fallback_query (headset_trace w) = [].
Proof.
  unfold headset_trace. now rewrite filter_app, !no_query_in_assert_trace.
Qed.

(** C6.  A linked controller that last saw the headset worn, then polls
    the same docked status twice and the worn status again: the first
    docked iteration asserts fallback routing, the second only polls and
    sleeps, the third routes to the headset; the fallback is evaluated
    once in the three iterations. *)
Theorem docked_twice_routes_once
    (w1 w2 w3 : World) (m : Memory) (d : Device) (worn docked : HeadsetStatus) :
  device m = Some d -> last_status m = Some worn ->
  is_on worn = true -> is_docked worn = false -> is_docked docked = true ->
  usb_poll w1 = Status docked -> usb_poll w2 = Status docked ->
  usb_poll w3 = Status worn ->
  calm w1 = true -> calm w3 = true ->
  let sink := get_best_fallback_sink (pactl_sinks w1) in
  let source := get_best_fallback_source (pactl_sources w1) in
  let m1 := mkMemory (Some d) (Some docked) sink source (backoff_seconds m) 0 in
  let m2 := mkMemory (Some d) (Some docked) sink source (backoff_seconds m) 1 in
  let m3 := mkMemory (Some d) (Some worn) None None (backoff_seconds m) 0 in
  iteration w1 m = (Ok m1, UsbGetStatus :: fallback_trace w1 ++ [Sleep 1])
  /\ iteration w2 m1 = (Ok m2, [UsbGetStatus; Sleep 1])
  /\ iteration w3 m2 = (Ok m3, UsbGetStatus :: headset_trace w3 ++ [Sleep 1])
  /\ List.length (filter is_fallback_query (trace (iterations [w1; w2; w3] m))) = 1%nat.
Proof.
  intros Hd Hlast Hon Hoff Hdk Hp1 Hp2 Hp3 Hc1 Hc3 sink source m1 m2 m3.
  assert (Hne : worn <> docked) by congruence.
  assert (E1 : iteration w1 m
               = (Ok m1, UsbGetStatus :: fallback_trace w1 ++ [Sleep 1])).
  { rewrite (iteration_linked _ _ _ Hd), (connected_status _ _ _ Hp1).
    rewrite handle_status_docked; [now rewrite Hd|exact Hc1| |exact Hdk].
    rewrite Hlast. congruence. }
  assert (E2 : iteration w2 m1 = (Ok m2, [UsbGetStatus; Sleep 1])).
  { rewrite (iteration_linked w2 m1 d eq_refl), (connected_status _ _ _ Hp2).
    rewrite handle_status_unchanged; [reflexivity|reflexivity|].
    right. cbn [poll_counter m1]. unfold fallback_check_interval. lia. }
  assert (E3 : iteration w3 m2
               = (Ok m3, UsbGetStatus :: headset_trace w3 ++ [Sleep 1])).
  { rewrite (iteration_linked w3 m2 d eq_refl), (connected_status _ _ _ Hp3).
    rewrite handle_status_active; [reflexivity|exact Hc3| |exact Hon|exact Hoff].
    cbn [last_status m2]. congruence. }
  repeat split; [exact E1|exact E2|exact E3|].
  cbn [iterations]. rewrite E1. run_binds. rewrite E2. run_binds.
  rewrite E3. unfold ret. run_binds.
  rewrite !filter_app. cbn [filter is_fallback_query app].
  rewrite !filter_app, one_query_in_fallback_trace, no_query_in_headset_trace.
  reflexivity.
Qed.

Lemma docked_twice_routes_once_witness :
  iterations [world_polling (Status DOCKED); world_polling (Status DOCKED);
              world_polling (Status ACTIVE)] memory_active
  = (Ok (mkMemory (Some TheDevice) (Some ACTIVE) None None 2 0),
     [UsbGetStatus;
      Run ["pactl"; "list"; "sinks"]; Run ["pw-cli"; "ls"; "Node"];
      Run ["wpctl"; "set-default"; "45"];
      Run ["pactl"; "list"; "sources"]; Run ["pw-cli"; "ls"; "Node"];
      Run ["wpctl"; "set-default"; "46"]; Sleep 1;
      UsbGetStatus; Sleep 1;
      UsbGetStatus;
      Run ["pw-cli"; "ls"; "Node"]; Run ["wpctl"; "set-default"; "47"];
      Run ["pw-cli"; "ls"; "Node"]; Run ["wpctl"; "set-default"; "48"];
      Sleep 1])
  /\ List.length
       (filter is_fallback_query
          (trace (iterations [world_polling (Status DOCKED);
                              world_polling (Status DOCKED);
                              world_polling (Status ACTIVE)] memory_active)))
     = 1%nat.
Proof.
  split; [vm_compute; reflexivity|].
  exact (proj2 (proj2 (proj2
    (docked_twice_routes_once
       (world_polling (Status DOCKED)) (world_polling (Status DOCKED))
       (world_polling (Status ACTIVE)) memory_active TheDevice ACTIVE DOCKED
       eq_refl eq_refl eq_refl eq_refl eq_refl eq_refl eq_refl eq_refl
       eq_refl eq_refl)))).
Defined.

(** C9.  A successful poll returns a changed status that is off and not
    docked: the status handling only sleeps, and the iteration of a linked
    controller only polls and sleeps; no routing call is made, the
    remembered fallback names are untouched, the status is recorded and
    the periodic counter is zero. *)
Theorem powered_off_routes_nothing
    (w : World) (m : Memory) (d : Device) (st : HeadsetStatus) :
  device m = Some d -> usb_poll w = Status st ->
  is_on st = false -> is_docked st = false -> last_status m <> Some st ->
  handle_status w st m
  = (Ok (mkMemory (device m) (Some st) (last_fallback_sink m)
           (last_fallback_source m) (backoff_seconds m) 0),
     [Sleep 1])
  /\ iteration w m
     = (Ok (mkMemory (Some d) (Some st) (last_fallback_sink m)
              (last_fallback_source m) (backoff_seconds m) 0),
        [UsbGetStatus; Sleep 1])
  /\ filter is_routing (trace (iteration w m)) = [].
Proof.
  intros Hd Hp Hon Hdk Hch.
  split; [now apply handle_status_off|].
  assert (E : iteration w m
              = (Ok (mkMemory (Some d) (Some st) (last_fallback_sink m)
                       (last_fallback_source m) (backoff_seconds m) 0),
                 [UsbGetStatus; Sleep 1])).
  { rewrite (iteration_linked _ _ _ Hd), (connected_status _ _ _ Hp).
    rewrite (handle_status_off _ _ _ Hch Hon Hdk), Hd. reflexivity. }
  split; [exact E|]. rewrite E. reflexivity.
Qed.

Lemma powered_off_routes_nothing_witness :
  iteration (world_polling (Status POWERED_OFF))
    (mkMemory (Some TheDevice) (Some DOCKED) (Some ANALOG_SINK)
       (Some MIC_SOURCE) 2 7)
  = (Ok (mkMemory (Some TheDevice) (Some POWERED_OFF) (Some ANALOG_SINK)
           (Some MIC_SOURCE) 2 0),
     [UsbGetStatus; Sleep 1]).
Proof.
  apply (powered_off_routes_nothing (world_polling (Status POWERED_OFF))
           (mkMemory (Some TheDevice) (Some DOCKED) (Some ANALOG_SINK)
              (Some MIC_SOURCE) 2 7) TheDevice POWERED_OFF);
    [reflexivity| reflexivity| reflexivity| reflexivity| discriminate].
Defined.

(** * Backoff *)

Lemma failed_run (ws : list World) (m : Memory) :
  device m = None -> backoff_in_range m ->
  forallb connect_fails ws = true ->
  exists m' t,
    iterations ws m = (Ok m', t) /\ device m' = None /\ backoff_in_range m' /\
    (backoff_seconds m <= backoff_seconds m')%Z.
Proof.
  revert m. induction ws as [|w ws IH]; intros m Hd Hr Hf.
  - exists m, []. repeat split; try assumption; try apply Hr. lia.
  - cbn [forallb] in Hf. apply andb_true_iff in Hf. destruct Hf as [Hw Hws].
    set (m1 := mkMemory None (last_status m) (last_fallback_sink m)
                 (last_fallback_source m)
                 (Z.min (backoff_seconds m * 2) max_backoff) (poll_counter m)).
    assert (Hr1 : backoff_in_range m1).
    { unfold backoff_in_range, max_backoff in *. cbn [backoff_seconds m1].
      unfold max_backoff. lia. }
    destruct (IH m1 eq_refl Hr1 Hws) as (m' & t & E & Hd' & Hr' & Hle).
    exists m', ((failed_connect_trace w ++ [Sleep (backoff_seconds m)]) ++ t).
    cbn [iterations]. rewrite (iteration_connect_fails _ _ Hd Hw).
    run_binds. fold m1. rewrite E. cbn [result trace fst snd].
    repeat split; try assumption; try apply Hr'.
    unfold backoff_in_range, max_backoff in *. cbn [backoff_seconds m1] in Hle.
    unfold max_backoff in Hle. lia.
Qed.

(** C7.  For a controller without a link, in any memory the loop can
    reach: a failed connect sleeps the backoff and then doubles it up to
    the ceiling, which never lowers it; after any run of failed connects
    the backoff is at least what it was and at most the ceiling; and after
    a successful connect the rest of the iteration runs, and ends, with the
    backoff at its floor. *)
Theorem backoff_doubles_capped_resets (m : Memory) :
  reachable m -> device m = None ->
  let b := backoff_seconds m in
  (forall w, connect_fails w = true ->
     iteration w m
     = (Ok (mkMemory None (last_status m) (last_fallback_sink m)
              (last_fallback_source m) (Z.min (b * 2) max_backoff)
              (poll_counter m)),
        failed_connect_trace w ++ [Sleep b])
     /\ (b <= Z.min (b * 2) max_backoff <= max_backoff)%Z)
  /\ (forall ws, forallb connect_fails ws = true ->
        exists m' t, iterations ws m = (Ok m', t) /\ device m' = None /\
                     (b <= backoff_seconds m' <= max_backoff)%Z)
  /\ (forall w, connect_fails w = false ->
        exists linked,
          backoff_seconds linked = 2%Z /\
          iteration w m = (result (connected w linked),
                           [UsbOpen; UsbGetStatus] ++ trace (connected w linked)) /\
          forall m', result (connected w linked) = Ok m' ->
                     backoff_seconds m' = 2%Z).
Proof.
  intros Hreach Hd b.
  assert (Hr := reachable_backoff_in_range m Hreach).
  split; [|split].
  - intros w Hf. split; [now apply iteration_connect_fails|].
    unfold backoff_in_range, max_backoff in *. fold b in Hr. lia.
  - intros ws Hf.
    destruct (failed_run ws m Hd Hr Hf) as (m' & t & E & Hd' & Hr' & Hle).
    exists m', t. repeat split; try assumption; apply Hr'.
  - intros w Hs.
    exists (mkMemory (Some TheDevice) None (last_fallback_sink m)
              (last_fallback_source m) 2 (poll_counter m)).
    split; [reflexivity|]. split; [now apply iteration_connect_succeeds|].
    intros m' H. now apply connected_backoff in H.
Qed.

(** Three failed connects from the start: 2, 4, 8 seconds slept, 16 next. *)
Lemma backoff_doubles_capped_resets_witness :
  exists m' t,
    iterations [world_unplugged; world_unplugged; world_unplugged] initial
    = (Ok m', t)
    /\ device m' = None /\ (2 <= backoff_seconds m' <= max_backoff)%Z.
Proof.
  assert (Hreach : reachable initial) by (exists []; reflexivity).
  destruct (backoff_doubles_capped_resets initial Hreach eq_refl) as (_ & H & _).
  exact (H [world_unplugged; world_unplugged; world_unplugged] eq_refl).
Defined.

(** * Further properties of the endpoint inspector *)

Lemma lower_char_idempotent (c : ascii) : lower_char (lower_char c) = lower_char c.
Proof.
  destruct c as [[] [] [] [] [] [] [] []]; vm_compute; reflexivity.
Qed.

Lemma lower_idempotent (s : string) : lower (lower s) = lower s.
Proof.
  induction s as [|c s IH]; simpl; [reflexivity|].
  now rewrite lower_char_idempotent, IH.
Qed.

(** X1.  Classification reads names without regard to case: a name and
    its lower-case form get the same sink kind and the same source kind,
    and every kind is one of the listed ones. *)
Theorem classification_ignores_case (name : string) :
  classify_sink (lower name) = classify_sink name
  /\ classify_source (lower name) = classify_source name
  /\ sink_kind (classify_sink name)
  /\ source_kind (classify_source name).
Proof.
  unfold classify_sink, classify_source, sink_kind, source_kind.
  rewrite lower_idempotent.
  repeat split; try reflexivity.
  - destruct (contains "hdmi" _); [tauto|].
    destruct (_ || _); [tauto|]. destruct (contains "usb" _); tauto.
  - destruct (contains ".monitor" _); [tauto|].
    destruct (contains "usb" _); [tauto|].
    destruct (_ || _); [tauto|]. destruct (_ || _); tauto.
Qed.

Module SinkKinds.
Import SinkParser SinkParserInv SinkParserFacts SinkKindsInv.

Lemma well_kinded_pending (st : state) : well_kinded (pending st).
Proof.
  unfold pending. destruct (current_name st) as [name|]; [|constructor].
  destruct (name =? EmptyString)%string; constructor; [|constructor].
  simpl. split; [reflexivity|]. intros H.
  apply String.eqb_neq in H. now rewrite H.
Qed.

Lemma well_kinded_step (st : state) (line : string) :
  well_kinded (sinks st) -> well_kinded (sinks (step st line)).
Proof.
  intros H. destruct (startswith (strip line) "Sink #") eqn:H1.
  - rewrite (step_header _ _ H1). cbn [sinks].
    apply Forall_app. split; [exact H|apply well_kinded_pending].
  - destruct (startswith (strip line) "Name:") eqn:H2.
    + now rewrite (step_name _ _ H1 H2).
    + destruct (step_other st line H1 H2) as [-> _]. exact H.
Qed.

Lemma well_kinded_run (lines : list string) : well_kinded (sinks (run lines)).
Proof.
  unfold run. rewrite sinks_save. apply Forall_app. split.
  - assert (G : forall l st, well_kinded (sinks st) ->
                             well_kinded (sinks (fold_left step l st))).
    { induction l as [|x l IH]; intros st H; simpl; [exact H|].
      now apply IH, well_kinded_step. }
    apply G. constructor.
  - apply well_kinded_pending.
Qed.

Lemma no_readings_pending (st : state) :
  port_availabilities st = [] ->
  Forall (fun s => sink_type s = "hdmi" -> is_available s = false) (pending st).
Proof.
  intros Hp. unfold pending. destruct (current_name st) as [name|]; [|constructor].
  destruct (name =? EmptyString)%string; constructor; [|constructor].
  simpl. intros ->. rewrite Hp. reflexivity.
Qed.

Lemma no_readings_step (st : state) (line : string) :
  is_ports_header line = false -> no_readings st -> no_readings (step st line).
Proof.
  unfold is_ports_header. intros Hp (Hi & Ha & Hs).
  destruct (startswith (strip line) "Sink #") eqn:H1.
  - rewrite (step_header _ _ H1). repeat split.
    cbn [sinks]. apply Forall_app. split; [exact Hs|now apply no_readings_pending].
  - destruct (startswith (strip line) "Name:") eqn:H2.
    + rewrite (step_name _ _ H1 H2). now repeat split.
    + unfold step. rewrite H1, H2, Hp, Hi. cbn [andb]. now repeat split.
Qed.

Lemma no_readings_run (lines : list string) :
  forallb (fun line => negb (is_ports_header line)) lines = true ->
  Forall (fun s => sink_type s = "hdmi" -> is_available s = false)
         (sinks (run lines)).
Proof.
  intros H.
  assert (G : forall l st, forallb (fun line => negb (is_ports_header line)) l = true ->
                           no_readings st -> no_readings (fold_left step l st)).
  { induction l as [|x l IH]; intros st Hl Hst; simpl; [exact Hst|].
    cbn [forallb] in Hl. apply andb_true_iff in Hl. destruct Hl as [Hx Hl].
    apply negb_true_iff in Hx. now apply IH, no_readings_step. }
  destruct (G lines init H) as (_ & Ha & Hs).
  { repeat split. constructor. }
  unfold run. rewrite sinks_save. apply Forall_app. split; [exact Hs|].
  now apply no_readings_pending.
Qed.

Lemma pending_with_prefix (p : list SinkInfo) (st : state) :
  pending (with_prefix p st) = pending st.
Proof. reflexivity. Qed.

Lemma step_with_prefix (p : list SinkInfo) (st : state) (line : string) :
  step (with_prefix p st) line = with_prefix p (step st line).
Proof.
  destruct (startswith (strip line) "Sink #") eqn:H1.
  - rewrite !(step_header _ _ H1), pending_with_prefix.
    unfold with_prefix. cbn [sinks current_name port_availabilities in_ports_section].
    now rewrite app_assoc.
  - unfold step. rewrite H1. unfold with_prefix.
    cbn [sinks current_name port_availabilities in_ports_section].
    repeat match goal with
           | |- context [if ?c then _ else _] => destruct c
           | |- context [match ?c with Some _ => _ | None => _ end] => destruct c
           end; reflexivity.
Qed.

Lemma fold_with_prefix (p : list SinkInfo) (lines : list string) (st : state) :
  fold_left step lines (with_prefix p st) = with_prefix p (fold_left step lines st).
Proof.
  revert st. induction lines as [|x l IH]; intros st; simpl; [reflexivity|].
  now rewrite step_with_prefix, IH.
Qed.

Lemma run_at_header (before : list string) (header : string) (after : list string) :
  is_sink_header header = true ->
  sinks (run (before ++ header :: after))
  = sinks (run before) ++ sinks (run (header :: after)).
Proof.
  unfold is_sink_header. intros Hh. unfold run.
  rewrite fold_left_app. cbn [fold_left].
  set (st1 := fold_left step before init).
  rewrite !(step_header _ _ Hh).
  change (pending init) with (@nil SinkInfo). cbn [sinks init app].
  replace (mkState (sinks st1 ++ pending st1) None [] false)
    with (with_prefix (sinks st1 ++ pending st1) (mkState [] None [] false))
    by (unfold with_prefix; cbn [sinks current_name port_availabilities
          in_ports_section]; now rewrite app_nil_r).
  rewrite fold_with_prefix, !sinks_save, pending_with_prefix.
  unfold with_prefix. cbn [sinks]. now rewrite app_assoc.
Qed.

End SinkKinds.

Lemma splitlines_line (line rest : string) :
  no_linebreak line = true ->
  splitlines (line ++ String LF rest)%string = line :: splitlines rest.
Proof.
  induction line as [|c line IH]; intros H.
  - cbn [append splitlines]. change (islinebreak LF) with true. cbn iota.
    change ((LF =? CR)%char) with false. cbn [andb].
    now destruct rest.
  - cbn [no_linebreak] in H. apply andb_true_iff in H. destruct H as [Hc Hl].
    apply negb_true_iff in Hc.
    cbn [append splitlines]. rewrite Hc, (IH Hl). reflexivity.
Qed.

(** Lines joined by line feeds split back into the same lines. *)
Lemma splitlines_unlines (lines : list string) :
  forallb no_linebreak lines = true -> splitlines (unlines lines) = lines.
Proof.
  induction lines as [|l r IH]; intros H; [reflexivity|].
  cbn [forallb] in H. apply andb_true_iff in H. destruct H as [Hl Hr].
  cbn [unlines]. rewrite (splitlines_line _ _ Hl), (IH Hr). reflexivity.
Qed.

(** X2.  Every sink the parser emits carries the kind that
    [classify_sink] gives its name, and availability is reported as false
    only for hdmi sinks: a sink of any other kind is always available. *)
Theorem parsed_sinks_are_classified (stdout : string) :
  Forall (fun s => sink_type s = classify_sink (sink_name s)
                   /\ (sink_type s <> "hdmi" -> is_available s = true))
         (get_sinks_with_port_availability stdout).
Proof. apply SinkKinds.well_kinded_run. Qed.

(** X3.  Port lines count only inside a ports section: in a report
    without any [Ports:] line every hdmi sink is unavailable, whatever its
    other lines say about availability. *)
Theorem no_ports_section_no_hdmi (stdout : string) :
  forallb (fun line => negb (is_ports_header line)) (splitlines stdout) = true ->
  Forall (fun s => sink_type s = "hdmi" -> is_available s = false)
         (get_sinks_with_port_availability stdout).
Proof. apply SinkKinds.no_readings_run. Qed.

Lemma no_ports_section_no_hdmi_witness :
  Forall (fun s => sink_type s = "hdmi" -> is_available s = false)
    (get_sinks_with_port_availability
       (unlines [ "Sink #1";
                  tab "Name: alsa_output.hdmi-stereo";
                  tab (tab "hdmi-output-0: HDMI / DisplayPort (priority: 5900, available)") ])).
Proof. apply no_ports_section_no_hdmi. vm_compute. reflexivity. Defined.

(** X4.  Sink blocks are parsed independently: a report cut before a
    [Sink #] line yields the sinks of the first part followed by the sinks
    of the second, so no name, reading or ports section leaks from one
    block into the next. *)
Theorem sink_blocks_are_independent
    (before : list string) (header : string) (after : list string) :
  forallb no_linebreak (before ++ header :: after) = true ->
  is_sink_header header = true ->
  get_sinks_with_port_availability (unlines (before ++ header :: after))
  = get_sinks_with_port_availability (unlines before)
    ++ get_sinks_with_port_availability (unlines (header :: after)).
Proof.
  intros Hl Hh. unfold get_sinks_with_port_availability.
  assert (Hl' := Hl). rewrite forallb_app in Hl'.
  apply andb_true_iff in Hl'. destruct Hl' as [Hb Ha].
  rewrite !splitlines_unlines by assumption.
  now apply SinkKinds.run_at_header.
Qed.

Lemma sink_blocks_are_independent_witness :
  get_sinks_with_port_availability
    (unlines ([ "Sink #56"; tab ("Name: " ++ HDMI_SINK); tab "Ports:";
                tab (tab "[Out] HDMI1: HDMI (type: HDMI, available)") ]
              ++ "Sink #57" :: [ tab ("Name: alsa_output.hdmi-two") ]))
  = get_sinks_with_port_availability
      (unlines [ "Sink #56"; tab ("Name: " ++ HDMI_SINK); tab "Ports:";
                 tab (tab "[Out] HDMI1: HDMI (type: HDMI, available)") ])
    ++ get_sinks_with_port_availability
         (unlines ("Sink #57" :: [ tab ("Name: alsa_output.hdmi-two") ])).
Proof. apply sink_blocks_are_independent; vm_compute; reflexivity. Defined.

(** * Further properties of the source parser and of the fallback policy *)

Lemma get_sources_each (P : SourceInfo -> Prop) (stdout : string) :
  (forall name, name <> EmptyString -> P (mkSourceInfo name (classify_source name))) ->
  Forall P (get_sources stdout).
Proof.
  intros HP. unfold get_sources, SourceParser.run.
  assert (Hsave : forall st, Forall P (SourceParser.sources st) ->
            Forall P (SourceParser.sources (SourceParser.save_current_source st))).
  { intros st H. rewrite SourceParserFacts.sources_save. apply Forall_app.
    split; [exact H|].
    destruct (SourceParser.current_name st) as [name|]; [|constructor].
    destruct (String.eqb_spec name EmptyString); constructor; [|constructor].
    now apply HP. }
  assert (Hfold : forall l st, Forall P (SourceParser.sources st) ->
            Forall P (SourceParser.sources (fold_left SourceParser.step l st))).
  { induction l as [|x l IH]; intros st H; simpl; [exact H|].
    apply IH. unfold SourceParser.step.
    destruct (startswith (strip x) "Source #"); [now apply Hsave|].
    now destruct (startswith (strip x) "Name:"). }
  apply Hsave, Hfold. constructor.
Qed.

(** X5.  Every source the parser emits has a name that is not empty and
    carries the kind that [classify_source] gives that name; an empty
    report yields no source. *)
Theorem parsed_sources_are_classified (stdout : string) :
  Forall (fun s => source_name s <> EmptyString
                   /\ source_type s = classify_source (source_name s))
         (get_sources stdout)
  /\ get_sources EmptyString = [].
Proof.
  split; [|reflexivity].
  apply get_sources_each. intros name Hne. now split.
Qed.

Lemma first_name_cond {A : Type} (cond : A -> bool) (name : A -> string)
    (l : list A) (n : string) :
  first_name cond name l = Some n ->
  exists x, In x l /\ name x = n /\ cond x = true.
Proof.
  induction l as [|y l IH]; simpl; [discriminate|].
  destruct (cond y) eqn:Hy.
  - intros [= <-]. exists y. auto.
  - intros H. destruct (IH H) as (x & Hx & Hn & Hc). exists x. auto.
Qed.

Lemma first_name_None_iff {A : Type} (cond : A -> bool) (name : A -> string)
    (l : list A) :
  first_name cond name l = None <-> Forall (fun x => cond x = false) l.
Proof.
  induction l as [|y l IH]; simpl; [split; [constructor|reflexivity]|].
  destruct (cond y) eqn:Hy.
  - split; [discriminate|]. intros H. inversion H; subst. congruence.
  - rewrite IH. split; [now constructor|]. intros H. now inversion H.
Qed.

(** The sink that the policy chose: one that passed the name filter and
    one of the three rules. *)
Lemma best_fallback_sink_chosen (sinks : list SinkInfo) (n : string) :
  best_fallback_sink sinks = Some n ->
  exists s, In s sinks /\ sink_name s = n /\ sink_name s <> HEADSET_SINK /\
            (hdmi_available s = true \/ is_analog s = true
             \/ available_not_usb s = true).
Proof.
  unfold best_fallback_sink. intros H.
  assert (Hf : exists s, In s (filter not_headset_sink sinks) /\ sink_name s = n /\
                 (hdmi_available s = true \/ is_analog s = true
                  \/ available_not_usb s = true)).
  { destruct (first_name hdmi_available _ _) eqn:H1.
    - injection H as ->. apply first_name_cond in H1.
      destruct H1 as (s & ? & ? & ?). exists s. auto.
    - destruct (first_name is_analog _ _) eqn:H2.
      + injection H as ->. apply first_name_cond in H2.
        destruct H2 as (s & ? & ? & ?). exists s. auto.
      + apply first_name_cond in H.
        destruct H as (s & ? & ? & ?). exists s. auto. }
  destruct Hf as (s & Hs & Hn & Hr). exists s.
  apply filter_In in Hs. destruct Hs as [Hin Hk].
  apply not_headset_sink_iff in Hk. auto.
Qed.

Lemma best_fallback_source_chosen (sources : list SourceInfo) (n : string) :
  best_fallback_source sources = Some n ->
  exists s, In s sources /\ source_name s = n /\ usable_source s = true /\
            (is_internal_mic s = true \/ is_external_mic s = true
             \/ not_usb_not_monitor s = true).
Proof.
  unfold best_fallback_source. intros H.
  assert (Hf : exists s, In s (filter usable_source sources) /\ source_name s = n /\
                 (is_internal_mic s = true \/ is_external_mic s = true
                  \/ not_usb_not_monitor s = true)).
  { destruct (first_name is_internal_mic _ _) eqn:H1.
    - injection H as ->. apply first_name_cond in H1.
      destruct H1 as (s & ? & ? & ?). exists s. auto.
    - destruct (first_name is_external_mic _ _) eqn:H2.
      + injection H as ->. apply first_name_cond in H2.
        destruct H2 as (s & ? & ? & ?). exists s. auto.
      + apply first_name_cond in H.
        destruct H as (s & ? & ? & ?). exists s. auto. }
  destruct Hf as (s & Hs & Hn & Hr). exists s.
  apply filter_In in Hs. tauto.
Qed.

(** X6.  From any report, the output fallback is never a usb sink: a
    chosen name is not empty, is not the headset's sink, and does not
    classify as usb. *)
Theorem fallback_sink_is_never_usb (stdout n : string) :
  get_best_fallback_sink stdout = Some n ->
  n <> EmptyString /\ n <> HEADSET_SINK /\ classify_sink n <> "usb".
Proof.
  unfold get_best_fallback_sink. intros H.
  apply best_fallback_sink_chosen in H.
  destruct H as (s & Hin & <- & Hh & Hr).
  split; [now apply (get_sinks_names_nonempty stdout)|]. split; [exact Hh|].
  assert (Hk := SinkKinds.well_kinded_run (splitlines stdout)).
  unfold SinkKindsInv.well_kinded in Hk. rewrite Forall_forall in Hk.
  destruct (Hk s Hin) as [<- _].
  destruct Hr as [Hr|[Hr|Hr]].
  - apply hdmi_available_iff in Hr. destruct Hr as [-> _]. discriminate.
  - apply is_analog_iff in Hr. rewrite Hr. discriminate.
  - apply available_not_usb_iff in Hr. tauto.
Qed.

Lemma fallback_sink_is_never_usb_witness :
  ANALOG_SINK <> EmptyString /\ ANALOG_SINK <> HEADSET_SINK
  /\ classify_sink ANALOG_SINK <> "usb".
Proof. apply (fallback_sink_is_never_usb sample_sinks). vm_compute. reflexivity. Defined.

(** X7.  From any report, the input fallback is never a monitor and never
    a usb source: a chosen name is not empty, is not the headset's source,
    and classifies neither as monitor nor as usb. *)
Theorem fallback_source_is_a_microphone (stdout n : string) :
  get_best_fallback_source stdout = Some n ->
  n <> EmptyString /\ n <> HEADSET_SOURCE
  /\ classify_source n <> "monitor" /\ classify_source n <> "usb".
Proof.
  unfold get_best_fallback_source. intros H.
  apply best_fallback_source_chosen in H.
  destruct H as (s & Hin & <- & Hu & Hr).
  apply usable_source_iff in Hu. destruct Hu as [Hh Hm].
  assert (Hk := get_sources_each
            (fun s => source_name s <> EmptyString
                      /\ source_type s = classify_source (source_name s)) stdout).
  rewrite Forall_forall in Hk. destruct (Hk (fun _ H => conj H eq_refl) s Hin) as [Hne <-].
  repeat split; try assumption.
  destruct Hr as [Hr|[Hr|Hr]].
  - apply is_internal_mic_iff in Hr. rewrite Hr. discriminate.
  - apply is_external_mic_iff in Hr. rewrite Hr. discriminate.
  - apply not_usb_not_monitor_iff in Hr. tauto.
Qed.

Lemma fallback_source_is_a_microphone_witness :
  MIC_SOURCE <> EmptyString /\ MIC_SOURCE <> HEADSET_SOURCE
  /\ classify_source MIC_SOURCE <> "monitor" /\ classify_source MIC_SOURCE <> "usb".
Proof.
  apply (fallback_source_is_a_microphone sample_sources). vm_compute. reflexivity.
Defined.

(** X8.  The output fallback gives up exactly when nothing usable is
    listed: [get_best_fallback_sink] returns None if and only if every
    parsed sink is the headset's, or is usb, or is an hdmi sink without an
    available port. *)
Theorem no_fallback_sink_iff (stdout : string) :
  get_best_fallback_sink stdout = None <->
  Forall (fun s => sink_name s = HEADSET_SINK \/ sink_type s = "usb"
                   \/ (sink_type s = "hdmi" /\ is_available s = false))
         (get_sinks_with_port_availability stdout).
Proof.
  unfold get_best_fallback_sink, best_fallback_sink.
  assert (Hk := SinkKinds.well_kinded_run (splitlines stdout)).
  unfold SinkKindsInv.well_kinded in Hk.
  fold (get_sinks_with_port_availability stdout) in Hk.
  set (sinks := get_sinks_with_port_availability stdout) in *.
  rewrite Forall_forall in Hk. rewrite Forall_forall.
  split.
  - intros H s Hin.
    destruct (String.eqb_spec (sink_name s) HEADSET_SINK) as [|Hh]; [now left|right].
    assert (Hf : In s (filter not_headset_sink sinks)).
    { apply filter_In. split; [exact Hin|]. now apply not_headset_sink_iff. }
    destruct (first_name hdmi_available _ _) eqn:H1; [discriminate|].
    destruct (first_name is_analog _ _) eqn:H2; [discriminate|].
    apply first_name_None_iff in H1, H2, H. rewrite Forall_forall in H1, H2, H.
    specialize (H1 s Hf). specialize (H2 s Hf). specialize (H s Hf).
    destruct (Hk s Hin) as [_ Hav].
    destruct (String.eqb_spec (sink_type s) "usb") as [|Hu]; [now left|right].
    unfold available_not_usb in H. apply String.eqb_neq in Hu. rewrite Hu in H.
    cbn [negb] in H. rewrite andb_true_r in H.
    destruct (String.eqb_spec (sink_type s) "hdmi") as [|Hd]; [now split|].
    rewrite (Hav Hd) in H. discriminate.
  - intros H.
    assert (Hall : forall s, In s (filter not_headset_sink sinks) ->
              hdmi_available s = false /\ is_analog s = false
              /\ available_not_usb s = false).
    { intros s Hs. apply filter_In in Hs. destruct Hs as [Hin Hh].
      apply not_headset_sink_iff in Hh.
      unfold hdmi_available, is_analog, available_not_usb.
      destruct (H s Hin) as [Hx|[Hx|[Hx1 Hx2]]]; [contradiction| |].
      - rewrite Hx. cbn. now rewrite andb_false_r.
      - rewrite Hx1, Hx2. now cbn. }
    assert (E1 : first_name hdmi_available sink_name (filter not_headset_sink sinks) = None).
    { apply first_name_None_iff, Forall_forall. intros s Hs. now apply Hall. }
    assert (E2 : first_name is_analog sink_name (filter not_headset_sink sinks) = None).
    { apply first_name_None_iff, Forall_forall. intros s Hs. now apply Hall. }
    rewrite E1, E2.
    apply first_name_None_iff, Forall_forall. intros s Hs. now apply Hall.
Qed.

(** X9.  The input fallback gives up exactly when only the headset,
    monitors and usb sources are listed: for every list of sources,
    [best_fallback_source] returns None if and only if each source is the
    headset's, a monitor or usb. *)
Theorem no_fallback_source_iff (sources : list SourceInfo) :
  best_fallback_source sources = None <->
  Forall (fun s => source_name s = HEADSET_SOURCE \/ source_type s = "monitor"
                   \/ source_type s = "usb") sources.
Proof.
  unfold best_fallback_source. rewrite Forall_forall. split.
  - intros H s Hin.
    destruct (String.eqb_spec (source_name s) HEADSET_SOURCE) as [|Hh]; [now left|right].
    destruct (String.eqb_spec (source_type s) "monitor") as [|Hm]; [now left|right].
    assert (Hf : In s (filter usable_source sources)).
    { apply filter_In. split; [exact Hin|]. now apply usable_source_iff. }
    destruct (first_name is_internal_mic _ _) eqn:H1; [discriminate|].
    destruct (first_name is_external_mic _ _) eqn:H2; [discriminate|].
    apply first_name_None_iff in H. rewrite Forall_forall in H.
    specialize (H s Hf). unfold not_usb_not_monitor in H.
    apply negb_false_iff, orb_true_iff in H.
    destruct H as [H|H]; apply String.eqb_eq in H; [exact H|contradiction].
  - intros H.
    assert (Hall : forall s, In s (filter usable_source sources) ->
              source_type s = "usb").
    { intros s Hs. apply filter_In in Hs. destruct Hs as [Hin Hu].
      apply usable_source_iff in Hu. destruct (H s Hin) as [|[|]]; tauto. }
    assert (E1 : first_name is_internal_mic source_name (filter usable_source sources) = None).
    { apply first_name_None_iff, Forall_forall. intros s Hs.
      unfold is_internal_mic. now rewrite (Hall s Hs). }
    assert (E2 : first_name is_external_mic source_name (filter usable_source sources) = None).
    { apply first_name_None_iff, Forall_forall. intros s Hs.
      unfold is_external_mic. now rewrite (Hall s Hs). }
    rewrite E1, E2.
    apply first_name_None_iff, Forall_forall. intros s Hs.
    unfold not_usb_not_monitor. now rewrite (Hall s Hs).
Qed.

(** * Further properties of the routing actuator *)

Lemma rstrip_by_last (p : ascii -> bool) (s pre : string) (c : ascii) :
  rstrip_by p s = (pre ++ String c EmptyString)%string -> p c = false.
Proof.
  revert pre. induction s as [|a r IH]; intros pre H.
  - destruct pre; discriminate.
  - cbn [rstrip_by] in H. destruct (rstrip_by p r) as [|d r'] eqn:Er.
    + destruct (p a) eqn:Ea; [destruct pre; discriminate|].
      destruct pre as [|x pre]; [now injection H as <-|].
      injection H as _ H. destruct pre; discriminate.
    + destruct pre as [|x pre]; [discriminate|].
      injection H as _ H. now apply (IH pre).
Qed.

Lemma get_node_id_loop_found (node_name : string) (lines : list string)
    (current_id : option string) (id : string) :
  get_node_id_loop node_name current_id lines = Ok (Some id) ->
  current_id = Some id \/
  exists line word,
    In line lines /\ is_id_line line = true /\
    nth_error (split line) 1 = Some word /\ id = rstrip_by is_comma word.
Proof.
  revert current_id. induction lines as [|line lines IH]; intros cur H.
  - discriminate.
  - cbn [get_node_id_loop] in H.
    fold (is_id_line line) in H. fold is_comma in H.
    destruct (is_id_line line) eqn:Hid.
    + destruct (nth_error (split line) 1) as [w|] eqn:Hw; [|discriminate].
      destruct (contains _ line).
      * injection H as <-. right. exists line, w. cbn [In]. auto.
      * destruct (IH _ H) as [E|(l & w' & Hin & ? & ? & ?)].
        -- injection E as <-. right. exists line, w. cbn [In]. auto.
        -- right. exists l, w'. cbn [In]. auto.
    + destruct (contains _ line).
      * injection H as ->. now left.
      * destruct (IH _ H) as [E|(l & w' & Hin & ? & ? & ?)]; [now left|].
        right. exists l, w'. cbn [In]. auto.
Qed.

(** X10.  An id that [get_node_id] returns is the second word of an id
    line of the report with its trailing commas removed, so it never ends
    with a comma. *)
Theorem node_id_comes_from_an_id_line (pw_stdout node_name id : string) :
  result (get_node_id pw_stdout node_name) = Ok (Some id) ->
  (exists line word,
      In line (splitlines pw_stdout) /\ is_id_line line = true /\
      nth_error (split line) 1 = Some word /\ id = rstrip_by is_comma word)
  /\ ~ ends_with_char id ",".
Proof.
  unfold get_node_id. cbn [result fst]. intros H.
  apply get_node_id_loop_found in H. destruct H as [H|H]; [discriminate|].
  split; [exact H|].
  destruct H as (line & word & _ & _ & _ & ->).
  intros [pre E]. apply rstrip_by_last in E. discriminate.
Qed.

Lemma node_id_comes_from_an_id_line_witness :
  (exists line word,
      In line (splitlines sample_nodes) /\ is_id_line line = true /\
      nth_error (split line) 1 = Some word /\ "45" = rstrip_by is_comma word)
  /\ ~ ends_with_char "45" ",".
Proof.
  apply (node_id_comes_from_an_id_line sample_nodes ANALOG_SINK).
  vm_compute. reflexivity.
Defined.

Lemma get_node_id_loop_unnamed (node_name : string) (lines : list string)
    (current_id : option string) :
  forallb (fun line => negb (is_id_line line)
                       || (2 <=? List.length (split line))%nat) lines = true ->
  forallb (fun line => negb (names_node node_name line)) lines = true ->
  get_node_id_loop node_name current_id lines = Ok None.
Proof.
  revert current_id. induction lines as [|line lines IH]; intros cur Hw Hn.
  - reflexivity.
  - cbn [forallb] in Hw, Hn.
    apply andb_true_iff in Hw. destruct Hw as [Hl Hw].
    apply andb_true_iff in Hn. destruct Hn as [Hx Hn].
    apply negb_true_iff in Hx. unfold names_node in Hx.
    cbn [get_node_id_loop]. fold (is_id_line line). rewrite Hx.
    destruct (is_id_line line).
    + cbn [negb orb] in Hl. apply Nat.leb_le in Hl.
      destruct (nth_error (split line) 1) eqn:E; [now apply IH|].
      apply nth_error_None in E. lia.
    + now apply IH.
Qed.

(** X11.  A name that no line of the [pw-cli] report carries is not
    asserted: [set_default_sink] and [set_default_source] look the name
    up, return False and never call [wpctl]. *)
Theorem unknown_node_is_not_asserted (w : World) (node_name : string) :
  ids_well_formed (pw_nodes_sink w) = true ->
  ids_well_formed (pw_nodes_source w) = true ->
  forallb (fun line => negb (names_node node_name line))
          (splitlines (pw_nodes_sink w) ++ splitlines (pw_nodes_source w)) = true ->
  set_default_sink w node_name = (Ok false, [PW_CLI])
  /\ set_default_source w node_name = (Ok false, [PW_CLI]).
Proof.
  intros H1 H2 Hn. rewrite forallb_app in Hn.
  apply andb_true_iff in Hn. destruct Hn as [Hn1 Hn2].
  unfold set_default_sink, set_default_source, set_default, get_node_id.
  rewrite (get_node_id_loop_unnamed node_name _ None H1 Hn1).
  rewrite (get_node_id_loop_unnamed node_name _ None H2 Hn2).
  split; reflexivity.
Qed.

Lemma unknown_node_is_not_asserted_witness :
  set_default_sink (world_polling (Status ACTIVE)) "alsa_output.unplugged"
  = (Ok false, [PW_CLI])
  /\ set_default_source (world_polling (Status ACTIVE)) "alsa_output.unplugged"
     = (Ok false, [PW_CLI]).
Proof.
  apply unknown_node_is_not_asserted; vm_compute; reflexivity.
Defined.

Lemma get_node_id_loop_raises (node_name : string) (lines : list string)
    (current_id : option string) (e : exn) :
  get_node_id_loop node_name current_id lines = Raise e -> e = IndexError.
Proof.
  revert current_id. induction lines as [|line lines IH]; intros cur H.
  - discriminate.
  - cbn [get_node_id_loop] in H.
    destruct (startswith line (String TAB "id")).
    + destruct (nth_error (split line) 1); [|now injection H as <-].
      destruct (contains _ line); [discriminate|now apply (IH _ H)].
    + destruct (contains _ line); [discriminate|now apply (IH _ H)].
Qed.

(** X12.  What [set_default_sink] and [set_default_source] can do: the
    lookup always comes first; [wpctl] is called at most once and only
    with an id that is not empty; True is returned only after a [wpctl]
    that succeeded, CalledProcessError is raised only after one that
    failed, and a report that cannot be read raises IndexError before any
    [wpctl]. *)
Theorem set_default_outcomes (pw_stdout : string) (wpctl_ok : bool) (node_name : string) :
  match set_default pw_stdout wpctl_ok node_name with
  | (Ok true, t) =>
      wpctl_ok = true /\ exists id, id <> EmptyString /\ t = [PW_CLI; WPCTL id]
  | (Ok false, t) => t = [PW_CLI]
  | (Raise CalledProcessError, t) =>
      wpctl_ok = false /\ exists id, id <> EmptyString /\ t = [PW_CLI; WPCTL id]
  | (Raise IndexError, t) => t = [PW_CLI]
  end.
Proof.
  unfold set_default, get_node_id.
  destruct (get_node_id_loop node_name None (splitlines pw_stdout))
    as [[id|]|e] eqn:E; try reflexivity.
  - rewrite bind_Ok. cbn [truthy].
    destruct (String.eqb_spec id EmptyString) as [|Hne]; [reflexivity|].
    cbn [negb]. unfold emit, ret, raise. run_binds.
    destruct wpctl_ok; cbn [result trace fst snd app];
      (split; [reflexivity|exists id; now split]).
  - apply get_node_id_loop_raises in E. subst e. reflexivity.
Qed.

(** * Further properties of the control loop *)

Lemma no_routing_in_failed_connect (w : World) (b : Z) :
  filter is_routing (failed_connect_trace w ++ [Sleep b]) = [].
Proof.
  unfold failed_connect_trace.
  destruct (usb_open w); [reflexivity|].
  destruct (usb_probe w) as [s|[]]; reflexivity.
Qed.

(** X13.  While the dock stays away nothing is routed: a run of
    iterations whose connects all fail makes no [pactl], [pw-cli] or
    [wpctl] call and changes nothing in the memory but the backoff. *)
Theorem no_routing_while_disconnected (ws : list World) (m : Memory) :
  device m = None -> forallb connect_fails ws = true ->
  exists b t,
    iterations ws m
    = (Ok (mkMemory None (last_status m) (last_fallback_sink m)
             (last_fallback_source m) b (poll_counter m)), t)
    /\ filter is_routing t = [].
Proof.
  revert m. induction ws as [|w ws IH]; intros m Hd Hf.
  - exists (backoff_seconds m), []. split; [|reflexivity].
    destruct m; cbn in Hd; subst; reflexivity.
  - cbn [forallb] in Hf. apply andb_true_iff in Hf. destruct Hf as [Hw Hws].
    set (m1 := mkMemory None (last_status m) (last_fallback_sink m)
                 (last_fallback_source m)
                 (Z.min (backoff_seconds m * 2) max_backoff) (poll_counter m)).
    destruct (IH m1 eq_refl Hws) as (b & t & E & Ht).
    exists b, ((failed_connect_trace w ++ [Sleep (backoff_seconds m)]) ++ t).
    cbn [iterations]. rewrite (iteration_connect_fails _ _ Hd Hw).
    run_binds. fold m1. rewrite E. cbn [result trace fst snd].
    split; [reflexivity|].
    rewrite filter_app, no_routing_in_failed_connect, Ht. reflexivity.
Qed.

Lemma no_routing_while_disconnected_witness :
  exists b t,
    iterations [world_unplugged; world_unplugged] before_reconnect
    = (Ok (mkMemory None None (Some ANALOG_SINK) (Some MIC_SOURCE) b 1), t)
    /\ filter is_routing t = [].
Proof.
  exact (no_routing_while_disconnected [world_unplugged; world_unplugged]
           before_reconnect eq_refl eq_refl).
Defined.

Lemma handle_status_returns (w : World) (st : HeadsetStatus) (m : Memory) :
  calm w = true -> exists m' t, handle_status w st m = (Ok m', t).
Proof.
  intros Hc.
  destruct (status_changed st (last_status m)) eqn:Hch.
  - apply status_changed_iff in Hch.
    destruct (is_docked st) eqn:Hdk.
    + rewrite (handle_status_docked _ _ _ Hc Hch Hdk). eauto.
    + destruct (is_on st) eqn:Hon.
      * rewrite (handle_status_active _ _ _ Hc Hch Hon Hdk). eauto.
      * rewrite (handle_status_off _ _ _ Hch Hon Hdk). eauto.
  - apply status_unchanged_iff in Hch.
    destruct (is_docked st) eqn:Hdk.
    + destruct (Z.lt_ge_cases (poll_counter m + 1) fallback_check_interval) as [Hlt|Hge].
      * rewrite (handle_status_unchanged w _ _ Hch (or_intror Hlt)). eauto.
      * rewrite (handle_status_periodic _ _ _ Hc Hch Hdk Hge). eauto.
    + rewrite (handle_status_unchanged w _ _ Hch (or_introl Hdk)). eauto.
Qed.

Lemma connected_returns (w : World) (m : Memory) :
  calm w = true -> exists m' t, connected w m = (Ok m', t).
Proof.
  intros Hc. destruct (usb_poll w) as [st|e] eqn:Hp.
  - rewrite (connected_status _ _ _ Hp).
    destruct (handle_status_returns w st m Hc) as (m' & t & ->).
    cbn [result trace fst snd]. eauto.
  - destruct e.
    + rewrite (connected_lost w DeviceNotConnected m Hc Hp); [eauto|discriminate].
    + rewrite (connected_lost w USBError m Hc Hp); [eauto|discriminate].
    + rewrite (connected_unexpected _ _ Hp). eauto.
Qed.

Lemma iteration_returns (w : World) (m : Memory) :
  calm w = true -> exists m' t, iteration w m = (Ok m', t).
Proof.
  intros Hc. destruct (device m) as [d|] eqn:Hd.
  - rewrite (iteration_linked _ _ _ Hd). now apply connected_returns.
  - destruct (connect_fails w) eqn:Hf.
    + rewrite (iteration_connect_fails _ _ Hd Hf). eauto.
    + rewrite (iteration_connect_succeeds _ _ Hd Hf).
      destruct (connected_returns w
                  (mkMemory (Some TheDevice) None (last_fallback_sink m)
                     (last_fallback_source m) 2 (poll_counter m)) Hc)
        as (m' & t & ->).
      cbn [result trace fst snd]. eauto.
Qed.

(** X14.  No hardware error stops the loop: whatever the device does
    (absent, failing to open, failing the probe or the poll in any way)
    and whatever the reports list, as long as [wpctl] succeeds and the
    [pw-cli] reports are well formed every iteration of a run returns, from
    any memory. *)
Theorem calm_run_never_raises (ws : list World) (m : Memory) :
  forallb calm ws = true -> exists m' t, iterations ws m = (Ok m', t).
Proof.
  revert m. induction ws as [|w ws IH]; intros m H.
  - exists m, []. reflexivity.
  - cbn [forallb] in H. apply andb_true_iff in H. destruct H as [Hw Hws].
    destruct (iteration_returns w m Hw) as (m1 & t1 & E1).
    destruct (IH m1 Hws) as (m' & t & E).
    exists m', (t1 ++ t). cbn [iterations]. rewrite E1. run_binds.
    rewrite E. reflexivity.
Qed.

Lemma calm_run_never_raises_witness :
  exists m' t,
    iterations [world_polling (Fails OtherError); world_unplugged;
                world_polling (Fails USBError); world_polling (Status DOCKED)]
      memory_active
    = (Ok m', t).
Proof.
  exact (calm_run_never_raises
           [world_polling (Fails OtherError); world_unplugged;
            world_polling (Fails USBError); world_polling (Status DOCKED)]
           memory_active eq_refl).
Defined.

(** X15.  A failing [wpctl] is not caught: when the headset is put on and
    its sink resolves but [wpctl set-default] exits with an error, the
    CalledProcessError leaves the iteration right after that call, before
    the source is routed or the status recorded, and ends the run. *)
Theorem wpctl_failure_ends_the_loop
    (w : World) (ws : list World) (m : Memory) (d : Device)
    (st : HeadsetStatus) (id : string) :
  device m = Some d -> usb_poll w = Status st -> last_status m <> Some st ->
  is_on st = true -> is_docked st = false ->
  result (get_node_id (pw_nodes_sink w) HEADSET_SINK) = Ok (Some id) ->
  id <> EmptyString -> wpctl_ok_sink w = false ->
  iterations (w :: ws) m
  = (Raise CalledProcessError, [UsbGetStatus; PW_CLI; WPCTL id]).
Proof.
  intros Hd Hp Hch Hon Hdk Hid Hne Hw.
  apply status_changed_iff in Hch.
  unfold get_node_id in Hid. cbn [result fst] in Hid.
  assert (E : set_default_sink w HEADSET_SINK
              = (Raise CalledProcessError, [PW_CLI; WPCTL id])).
  { unfold set_default_sink, set_default, get_node_id. rewrite Hid, Hw.
    rewrite bind_Ok. cbn [truthy]. apply String.eqb_neq in Hne. rewrite Hne.
    cbn [negb]. unfold emit, raise. run_binds. reflexivity. }
  cbn [iterations]. rewrite (iteration_linked _ _ _ Hd), (connected_status _ _ _ Hp).
  unfold handle_status. cbn [last_status set_poll_counter].
  rewrite Hch, Hon, Hdk. cbn [negb andb]. rewrite E.
  run_binds. reflexivity.
Qed.

Lemma wpctl_failure_ends_the_loop_witness :
  iterations
    [ mkWorld None (Status ACTIVE) (Status ACTIVE) sample_sinks sample_sources
        sample_nodes sample_nodes false true;
      world_polling (Status DOCKED) ]
    (mkMemory (Some TheDevice) (Some DOCKED) (Some ANALOG_SINK)
       (Some MIC_SOURCE) 2 3)
  = (Raise CalledProcessError, [UsbGetStatus; PW_CLI; WPCTL "47"]).
Proof.
  apply (wpctl_failure_ends_the_loop _ _ _ TheDevice ACTIVE "47");
    try reflexivity; discriminate.
Defined.

Lemma same_but_fallbacks_trans (a b c : Memory) :
  same_but_fallbacks a b -> same_but_fallbacks b c -> same_but_fallbacks a c.
Proof. unfold same_but_fallbacks. intuition congruence. Qed.

Lemma apply_fallback_sink_frame (w : World) (c : option string) (m m' : Memory) :
  result (apply_fallback_sink w c m) = Ok m' -> same_but_fallbacks m m'.
Proof.
  unfold apply_fallback_sink. destruct c as [n|].
  - destruct (truthy (Some n)).
    + intros H. apply bind_result_Ok in H. destruct H as (b & _ & H).
      apply result_ret in H. subst. now repeat split.
    + intros H. apply result_ret in H. subst. now repeat split.
  - intros H. apply result_ret in H. subst. now repeat split.
Qed.

Lemma apply_fallback_source_frame (w : World) (c : option string) (m m' : Memory) :
  result (apply_fallback_source w c m) = Ok m' -> same_but_fallbacks m m'.
Proof.
  unfold apply_fallback_source. destruct c as [n|].
  - destruct (truthy (Some n)).
    + intros H. apply bind_result_Ok in H. destruct H as (b & _ & H).
      apply result_ret in H. subst. now repeat split.
    + intros H. apply result_ret in H. subst. now repeat split.
  - intros H. apply result_ret in H. subst. now repeat split.
Qed.

Lemma switch_to_fallback_frame (w : World) (m m' : Memory) :
  result (switch_to_fallback w m) = Ok m' -> same_but_fallbacks m m'.
Proof.
  unfold switch_to_fallback. intros H.
  apply bind_result_Ok in H. destruct H as (c1 & _ & H).
  apply bind_result_Ok in H. destruct H as (m1 & H1 & H).
  apply bind_result_Ok in H. destruct H as (c2 & _ & H).
  apply apply_fallback_source_frame in H.
  apply apply_fallback_sink_frame in H1.
  now apply (same_but_fallbacks_trans m m1 m').
Qed.

(** The status handling keeps the device and the backoff, and leaves the
    counter at zero or one higher. *)
Lemma handle_status_frame (w : World) (st : HeadsetStatus) (m m' : Memory) :
  result (handle_status w st m) = Ok m' ->
  device m' = device m /\ backoff_seconds m' = backoff_seconds m
  /\ (poll_counter m' = 0 \/ poll_counter m' = poll_counter m + 1)%Z.
Proof.
  unfold handle_status. intros H.
  apply bind_result_Ok in H. destruct H as (m2 & H & H').
  apply bind_result_Ok in H'. destruct H' as (u & _ & H').
  apply result_ret in H'. subst m2.
  set (m0 := set_poll_counter (poll_counter m + 1) m) in *.
  assert (E0 : device m0 = device m /\ backoff_seconds m0 = backoff_seconds m
               /\ poll_counter m0 = (poll_counter m + 1)%Z) by now repeat split.
  destruct E0 as (Ed & Eb & Ep). rewrite <- Ed, <- Eb, <- Ep.
  clearbody m0. clear Ed Eb Ep.
  destruct (status_changed st (last_status m0)).
  - apply bind_result_Ok in H. destruct H as (m1 & H & H').
    apply result_ret in H'. subst m'.
    cbn [device backoff_seconds poll_counter set_poll_counter set_last_status].
    assert (F : device m1 = device m0 /\ backoff_seconds m1 = backoff_seconds m0).
    { destruct (is_on st && negb (is_docked st)).
      - apply bind_result_Ok in H. destruct H as (b1 & _ & H).
        apply bind_result_Ok in H. destruct H as (b2 & _ & H).
        apply result_ret in H. subst m1. now split.
      - destruct (is_docked st).
        + apply switch_to_fallback_frame in H. destruct H as (? & _ & ? & _). now split.
        + apply result_ret in H. subst. now split. }
    destruct F as [-> ->]. auto.
  - destruct (is_docked st && (fallback_check_interval <=? poll_counter m0)%Z).
    + apply bind_result_Ok in H. destruct H as (c1 & _ & H).
      apply bind_result_Ok in H. destruct H as (c2 & _ & H).
      set (mz := set_poll_counter 0 m0) in *.
      assert (F : device m' = device mz /\ backoff_seconds m' = backoff_seconds mz
                  /\ poll_counter m' = poll_counter mz).
      { clearbody mz.
        destruct (negb (opt_eqb c1 (last_fallback_sink mz))
                  || negb (opt_eqb c2 (last_fallback_source mz))).
        - apply bind_result_Ok in H. destruct H as (m1 & H1 & H).
          assert (F1 : same_but_fallbacks mz m1).
          { destruct (negb (opt_eqb c1 (last_fallback_sink mz))).
            - now apply apply_fallback_sink_frame in H1.
            - apply result_ret in H1. subst. now repeat split. }
          assert (F2 : same_but_fallbacks m1 m').
          { destruct (negb (opt_eqb c2 (last_fallback_source m1))).
            - now apply apply_fallback_source_frame in H.
            - apply result_ret in H. subst. now repeat split. }
          destruct (same_but_fallbacks_trans _ _ _ F1 F2) as (? & _ & ? & ?).
          now repeat split.
        - apply result_ret in H. subst. now repeat split. }
      destruct F as (-> & -> & ->). cbn. auto.
    + apply result_ret in H. subst. auto.
Qed.

Lemma backoff_step_next (b : Z) :
  backoff_step b -> backoff_step (Z.min (b * 2) max_backoff).
Proof.
  unfold backoff_step, max_backoff.
  intros [->|[->|[->|[->| ->]]]]; cbn; auto 6.
Qed.

Lemma connected_memory_ok (w : World) (m m' : Memory) :
  memory_ok m -> device m <> None -> result (connected w m) = Ok m' ->
  memory_ok m'.
Proof.
  intros (Hdev & Hb & Hp) Hlinked. unfold connected. intros H.
  apply bind_result_Ok in H. destruct H as (u & _ & H).
  assert (Hlost : forall m1,
             same_but_fallbacks (set_last_status None (set_device None m)) m1 ->
             memory_ok m1).
  { intros m1 (Ed & Es & Eb & Ep). unfold memory_ok.
    rewrite Es, Eb, Ep. now repeat split. }
  destruct (usb_poll w) as [st|[]].
  - apply handle_status_frame in H. destruct H as (Ed & Eb & Ep).
    unfold memory_ok. rewrite Ed, Eb. repeat split; [contradiction|exact Hb|].
    destruct Ep as [->| ->]; lia.
  - apply bind_result_Ok in H. destruct H as (u1 & _ & H).
    apply bind_result_Ok in H. destruct H as (m1 & H1 & H).
    apply bind_result_Ok in H. destruct H as (u2 & _ & H).
    apply result_ret in H. subst m1.
    apply Hlost. now apply switch_to_fallback_frame in H1.
  - apply bind_result_Ok in H. destruct H as (u1 & _ & H).
    apply bind_result_Ok in H. destruct H as (m1 & H1 & H).
    apply bind_result_Ok in H. destruct H as (u2 & _ & H).
    apply result_ret in H. subst m1.
    apply Hlost. now apply switch_to_fallback_frame in H1.
  - apply bind_result_Ok in H. destruct H as (u1 & _ & H).
    apply bind_result_Ok in H. destruct H as (u2 & _ & H).
    apply result_ret in H. subst m'. apply Hlost. now repeat split.
Qed.

Lemma iteration_memory_ok (w : World) (m m' : Memory) :
  memory_ok m -> result (iteration w m) = Ok m' -> memory_ok m'.
Proof.
  intros Hok H. destruct (device m) as [d|] eqn:Hd.
  - rewrite (iteration_linked _ _ _ Hd) in H.
    apply (connected_memory_ok w m); [exact Hok|congruence|exact H].
  - destruct Hok as (Hdev & Hb & Hp).
    destruct (connect_fails w) eqn:Hf.
    + rewrite (iteration_connect_fails _ _ Hd Hf) in H. injection H as <-.
      repeat split; cbn; [auto|now apply backoff_step_next|exact Hp].
    + rewrite (iteration_connect_succeeds _ _ Hd Hf) in H. cbn [result fst] in H.
      apply (connected_memory_ok w _ _) in H; [exact H| |discriminate].
      split; [intros _; reflexivity|]. split; [unfold backoff_step; cbn; auto|exact Hp].
Qed.

(** X16.  In every memory the loop can reach: when no device is held no
    status is remembered either, so the first poll after a reconnect
    always counts as a change; the backoff is 2, 4, 8, 16 or 30 seconds;
    and the periodic counter is not negative. *)
Theorem reachable_memory_is_ok (m : Memory) : reachable m -> memory_ok m.
Proof.
  intros [ws H].
  assert (G : forall l m0 m1, memory_ok m0 -> result (iterations l m0) = Ok m1 ->
                              memory_ok m1).
  { induction l as [|w l IH]; intros m0 m1 H0 Hr; simpl in Hr.
    - apply result_ret in Hr. now subst.
    - apply bind_result_Ok in Hr. destruct Hr as (m2 & H2 & Hr).
      apply (IH m2); [|exact Hr]. now apply (iteration_memory_ok w m0). }
  apply (G ws initial); [|exact H].
  repeat split; cbn; [unfold backoff_step; auto|lia].
Qed.

Lemma reachable_memory_is_ok_witness : memory_ok before_reconnect.
Proof.
  apply reachable_memory_is_ok.
  exists (firstn 4 reconnect_run). vm_compute. reflexivity.
Defined.

(** X17.  A reconnect always forces a routing decision: when a controller
    without a link connects and the poll succeeds, the status counts as
    changed whatever was remembered, so a docked headset gets the fallback
    asserted, a worn one gets the headset asserted, and the memory ends
    with the backoff at its floor and the counter at zero. *)
Theorem reconnect_routes_again (w : World) (m : Memory) (st : HeadsetStatus) :
  device m = None -> connect_fails w = false -> usb_poll w = Status st ->
  calm w = true ->
  iteration w m
  = if is_docked st then
      (Ok (mkMemory (Some TheDevice) (Some st)
             (get_best_fallback_sink (pactl_sinks w))
             (get_best_fallback_source (pactl_sources w)) 2 0),
       [UsbOpen; UsbGetStatus; UsbGetStatus] ++ fallback_trace w ++ [Sleep 1])
    else if is_on st then
      (Ok (mkMemory (Some TheDevice) (Some st) None None 2 0),
       [UsbOpen; UsbGetStatus; UsbGetStatus] ++ headset_trace w ++ [Sleep 1])
    else
      (Ok (mkMemory (Some TheDevice) (Some st) (last_fallback_sink m)
             (last_fallback_source m) 2 0),
       [UsbOpen; UsbGetStatus; UsbGetStatus; Sleep 1]).
Proof.
  intros Hd Hs Hp Hc.
  rewrite (iteration_connect_succeeds _ _ Hd Hs), (connected_status _ _ _ Hp).
  set (linked := mkMemory (Some TheDevice) None (last_fallback_sink m)
                   (last_fallback_source m) 2 (poll_counter m)).
  assert (Hch : last_status linked <> Some st) by discriminate.
  destruct (is_docked st) eqn:Hdk.
  - rewrite (handle_status_docked _ _ _ Hc Hch Hdk). reflexivity.
  - destruct (is_on st) eqn:Hon.
    + rewrite (handle_status_active _ _ _ Hc Hch Hon Hdk). reflexivity.
    + rewrite (handle_status_off _ _ _ Hch Hon Hdk). reflexivity.
Qed.

Lemma reconnect_routes_again_witness :
  iteration (world_polling (Status DOCKED))
    (mkMemory None None (Some ANALOG_SINK) (Some MIC_SOURCE) 16 4)
  = (Ok (mkMemory (Some TheDevice) (Some DOCKED) (Some ANALOG_SINK)
           (Some MIC_SOURCE) 2 0),
     [UsbOpen; UsbGetStatus; UsbGetStatus]
     ++ fallback_trace (world_polling (Status DOCKED)) ++ [Sleep 1]).
Proof.
  exact (reconnect_routes_again (world_polling (Status DOCKED))
           (mkMemory None None (Some ANALOG_SINK) (Some MIC_SOURCE) 16 4)
           DOCKED eq_refl eq_refl eq_refl eq_refl).
Defined.

(** X18.  Polls that return the remembered status do nothing but count:
    for a worn or powered-off headset for any number of polls, and for a
    docked one as long as the counter stays below the threshold of the
    periodic check, each iteration only polls and sleeps one second, and
    the memory changes in the counter alone. *)
Theorem unchanged_status_is_idle
    (ws : list World) (m : Memory) (d : Device) (st : HeadsetStatus) :
  device m = Some d -> last_status m = Some st ->
  Forall (fun w => usb_poll w = Status st) ws ->
  (is_docked st = false
   \/ poll_counter m + Z.of_nat (List.length ws) < fallback_check_interval)%Z ->
  iterations ws m
  = (Ok (mkMemory (device m) (last_status m) (last_fallback_sink m)
           (last_fallback_source m) (backoff_seconds m)
           (poll_counter m + Z.of_nat (List.length ws))),
     idle_trace ws).
Proof.
  revert m. induction ws as [|w ws IH]; intros m Hd Hl Hall Hlim.
  - cbn. rewrite Z.add_0_r. now destruct m.
  - inversion Hall as [|? ? Hp Hall']; subst.
    cbn [iterations]. rewrite (iteration_linked _ _ _ Hd), (connected_status _ _ _ Hp).
    rewrite handle_status_unchanged; [|exact Hl|].
    2:{ destruct Hlim as [Hlim|Hlim]; [now left|right].
        cbn [List.length] in Hlim. lia. }
    run_binds.
    set (m1 := mkMemory (device m) (last_status m) (last_fallback_sink m)
                 (last_fallback_source m) (backoff_seconds m) (poll_counter m + 1)).
    rewrite (IH m1); [|exact Hd|exact Hl|exact Hall'|].
    2:{ destruct Hlim as [Hlim|Hlim]; [now left|right].
        cbn [List.length poll_counter m1] in *. lia. }
    cbn [device last_status last_fallback_sink last_fallback_source
         backoff_seconds poll_counter m1 result trace fst snd].
    replace (poll_counter m + 1 + Z.of_nat (List.length ws))%Z
      with (poll_counter m + Z.of_nat (List.length (w :: ws)))%Z
      by (cbn [List.length]; lia).
    reflexivity.
Qed.

Lemma unchanged_status_is_idle_witness :
  iterations (repeat (world_polling (Status DOCKED)) 9)
    (mkMemory (Some TheDevice) (Some DOCKED) (Some ANALOG_SINK)
       (Some MIC_SOURCE) 2 0)
  = (Ok (mkMemory (Some TheDevice) (Some DOCKED) (Some ANALOG_SINK)
           (Some MIC_SOURCE) 2 9),
     idle_trace (repeat (world_polling (Status DOCKED)) 9)).
Proof.
  refine (unchanged_status_is_idle
            (repeat (world_polling (Status DOCKED)) 9)
            (mkMemory (Some TheDevice) (Some DOCKED) (Some ANALOG_SINK)
               (Some MIC_SOURCE) 2 0) TheDevice DOCKED eq_refl eq_refl _ _).
  - repeat constructor.
  - right. vm_compute. reflexivity.
Defined.

(** X19.  The periodic check of a docked headset, due at the tenth
    unchanged poll: both fallbacks are recomputed, a direction is asserted
    only if its choice differs from the remembered one, the memory ends
    with the two choices and the counter at zero; when neither choice
    changed, nothing is looked up or asserted. *)
Theorem periodic_check_asserts_changes_only
    (w : World) (m : Memory) (d : Device) (st : HeadsetStatus) :
  device m = Some d -> usb_poll w = Status st -> last_status m = Some st ->
  is_docked st = true ->
  (fallback_check_interval <= poll_counter m + 1)%Z -> calm w = true ->
  let sink := get_best_fallback_sink (pactl_sinks w) in
  let source := get_best_fallback_source (pactl_sources w) in
  iteration w m
  = (Ok (mkMemory (Some d) (Some st) sink source (backoff_seconds m) 0),
     [UsbGetStatus; Run ["pactl"; "list"; "sinks"]; Run ["pactl"; "list"; "sources"]]
     ++ (if opt_eqb sink (last_fallback_sink m) then []
         else choice_trace (pw_nodes_sink w) sink)
     ++ (if opt_eqb source (last_fallback_source m) then []
         else choice_trace (pw_nodes_source w) source)
     ++ [Sleep 1])
  /\ (last_fallback_sink m = sink -> last_fallback_source m = source ->
      trace (iteration w m)
      = [UsbGetStatus; Run ["pactl"; "list"; "sinks"];
         Run ["pactl"; "list"; "sources"]; Sleep 1]).
Proof.
  intros Hd Hp Hl Hdk Hdue Hc sink source.
  assert (E : iteration w m
    = (Ok (mkMemory (Some d) (Some st) sink source (backoff_seconds m) 0),
       [UsbGetStatus; Run ["pactl"; "list"; "sinks"]; Run ["pactl"; "list"; "sources"]]
       ++ (if opt_eqb sink (last_fallback_sink m) then []
           else choice_trace (pw_nodes_sink w) sink)
       ++ (if opt_eqb source (last_fallback_source m) then []
           else choice_trace (pw_nodes_source w) source)
       ++ [Sleep 1])).
  { rewrite (iteration_linked _ _ _ Hd), (connected_status _ _ _ Hp).
    rewrite (handle_status_periodic _ _ _ Hc Hl Hdk Hdue), Hd, Hl. reflexivity. }
  split; [exact E|].
  intros E1 E2. rewrite E. cbn [trace snd].
  rewrite (proj2 (opt_eqb_eq sink (last_fallback_sink m)) (eq_sym E1)).
  rewrite (proj2 (opt_eqb_eq source (last_fallback_source m)) (eq_sym E2)).
  reflexivity.
Qed.

Lemma periodic_check_asserts_changes_only_witness :
  iteration (world_polling (Status DOCKED))
    (mkMemory (Some TheDevice) (Some DOCKED) (Some HDMI_SINK)
       (Some MIC_SOURCE) 2 9)
  = (Ok (mkMemory (Some TheDevice) (Some DOCKED) (Some ANALOG_SINK)
           (Some MIC_SOURCE) 2 0),
     [UsbGetStatus; Run ["pactl"; "list"; "sinks"];
      Run ["pactl"; "list"; "sources"]; PW_CLI; WPCTL "45"; Sleep 1]).
Proof.
  destruct (periodic_check_asserts_changes_only (world_polling (Status DOCKED))
              (mkMemory (Some TheDevice) (Some DOCKED) (Some HDMI_SINK)
                 (Some MIC_SOURCE) 2 9) TheDevice DOCKED
              eq_refl eq_refl eq_refl eq_refl) as [E _];
    [vm_compute; discriminate|reflexivity|].
  rewrite E. vm_compute. reflexivity.
Defined.

Lemma no_sleep_in_assert_trace (pw_stdout node_name : string) :
  filter is_sleep (assert_trace pw_stdout node_name) = [].
Proof.
  unfold assert_trace. destruct (node_id_of pw_stdout node_name) as [id|];
    [destruct (id =? EmptyString)%string|]; reflexivity.
Qed.

Lemma no_sleep_in_choice_trace (pw_stdout : string) (choice : option string) :
  filter is_sleep (choice_trace pw_stdout choice) = [].
Proof.
  unfold choice_trace. destruct choice as [n|]; [|reflexivity].
  destruct (n =? EmptyString)%string; [reflexivity|apply no_sleep_in_assert_trace].
Qed.

Lemma no_sleep_in_fallback_trace (w : World) :
  filter is_sleep (fallback_trace w) = [].
Proof.
  unfold fallback_trace. cbn [filter is_sleep].
  rewrite filter_app, no_sleep_in_choice_trace. cbn [app filter is_sleep].
  apply no_sleep_in_choice_trace.
Qed.

Lemma no_sleep_in_headset_trace (w : World) :
  filter is_sleep (headset_trace w) = [].
Proof.
  unfold headset_trace. now rewrite filter_app, !no_sleep_in_assert_trace.
Qed.

Lemma handle_status_sleeps (w : World) (st : HeadsetStatus) (m : Memory) :
  calm w = true ->
  exists m' t0,
    handle_status w st m = (Ok m', t0 ++ [Sleep 1]) /\ filter is_sleep t0 = [].
Proof.
  intros Hc.
  destruct (status_changed st (last_status m)) eqn:Hch.
  - apply status_changed_iff in Hch.
    destruct (is_docked st) eqn:Hdk.
    + rewrite (handle_status_docked _ _ _ Hc Hch Hdk).
      eexists _, _. split; [reflexivity|apply no_sleep_in_fallback_trace].
    + destruct (is_on st) eqn:Hon.
      * rewrite (handle_status_active _ _ _ Hc Hch Hon Hdk).
        eexists _, _. split; [reflexivity|apply no_sleep_in_headset_trace].
      * rewrite (handle_status_off _ _ _ Hch Hon Hdk).
        eexists _, []. split; reflexivity.
  - apply status_unchanged_iff in Hch.
    assert (Hidle : is_docked st = false
                    \/ (poll_counter m + 1 < fallback_check_interval)%Z ->
                    exists m' t0, handle_status w st m = (Ok m', t0 ++ [Sleep 1])
                                  /\ filter is_sleep t0 = []).
    { intros H. rewrite (handle_status_unchanged w _ _ Hch H).
      eexists _, []. split; reflexivity. }
    destruct (is_docked st) eqn:Hdk; [|now apply Hidle; left].
    destruct (Z.lt_ge_cases (poll_counter m + 1) fallback_check_interval) as [Hlt|Hge];
      [now apply Hidle; right|].
    rewrite (handle_status_periodic _ _ _ Hc Hch Hdk Hge).
    eexists _, _. split.
    + rewrite !app_assoc. reflexivity.
    + rewrite !filter_app. cbn [filter is_sleep app].
      destruct (opt_eqb _ (last_fallback_sink m));
        destruct (opt_eqb _ (last_fallback_source m));
        rewrite ?no_sleep_in_choice_trace; reflexivity.
Qed.

Lemma connected_sleeps (w : World) (m : Memory) :
  calm w = true ->
  exists m' t0 s,
    connected w m = (Ok m', t0 ++ [Sleep s]) /\ filter is_sleep t0 = []
    /\ (s = 1 \/ s = backoff_seconds m)%Z.
Proof.
  intros Hc. destruct (usb_poll w) as [st|e] eqn:Hp.
  - rewrite (connected_status _ _ _ Hp).
    destruct (handle_status_sleeps w st m Hc) as (m' & t0 & -> & Ht).
    exists m', (UsbGetStatus :: t0), 1%Z. cbn [result trace fst snd].
    split; [reflexivity|]. split; [cbn [filter is_sleep]; exact Ht|now left].
  - assert (Hlost : e <> OtherError ->
              exists m' t0 s, connected w m = (Ok m', t0 ++ [Sleep s])
                /\ filter is_sleep t0 = [] /\ (s = 1 \/ s = backoff_seconds m)%Z).
    { intros He. rewrite (connected_lost w e m Hc Hp He).
      eexists _, ([UsbGetStatus; UsbClose] ++ fallback_trace w), _.
      split; [now rewrite <- app_assoc|].
      split; [|now right]. cbn [app filter is_sleep].
      apply no_sleep_in_fallback_trace. }
    destruct e; [apply Hlost; discriminate|apply Hlost; discriminate|].
    rewrite (connected_unexpected _ _ Hp).
    exists (mkMemory None None (last_fallback_sink m) (last_fallback_source m)
              (backoff_seconds m) (poll_counter m)),
           [UsbGetStatus; UsbClose], (backoff_seconds m).
    split; [reflexivity|]. split; [reflexivity|now right].
Qed.

(** X21.  The loop never spins: as long as the commands succeed, every
    iteration makes all its calls first and then sleeps exactly once, as
    its last action, for one second after a successful poll and for the
    backoff otherwise (the backoff it had, or its floor of two seconds
    when the connect of this iteration succeeded and the poll then
    failed). *)
Theorem every_iteration_ends_with_one_sleep (w : World) (m : Memory) :
  calm w = true ->
  exists m' t0 s,
    iteration w m = (Ok m', t0 ++ [Sleep s])
    /\ filter is_sleep t0 = []
    /\ (s = 1 \/ s = backoff_seconds m \/ s = 2)%Z.
Proof.
  intros Hc. destruct (device m) as [d|] eqn:Hd.
  - rewrite (iteration_linked _ _ _ Hd).
    destruct (connected_sleeps w m Hc) as (m' & t0 & s & E & Ht & Hs).
    exists m', t0, s. split; [exact E|]. split; [exact Ht|tauto].
  - destruct (connect_fails w) eqn:Hf.
    + rewrite (iteration_connect_fails _ _ Hd Hf).
      eexists _, _, _. split; [reflexivity|]. split; [|auto].
      unfold failed_connect_trace. destruct (usb_open w); [reflexivity|].
      destruct (usb_probe w) as [?|[]]; reflexivity.
    + rewrite (iteration_connect_succeeds _ _ Hd Hf).
      destruct (connected_sleeps w
                  (mkMemory (Some TheDevice) None (last_fallback_sink m)
                     (last_fallback_source m) 2 (poll_counter m)) Hc)
        as (m' & t0 & s & -> & Ht & Hs).
      exists m', ([UsbOpen; UsbGetStatus] ++ t0), s. cbn [result trace fst snd].
      split; [now rewrite <- app_assoc|].
      split; [cbn [app filter is_sleep]; exact Ht|].
      cbn [backoff_seconds] in Hs. tauto.
Qed.

Lemma every_iteration_ends_with_one_sleep_witness :
  exists m' t0 s,
    iteration (world_polling (Fails USBError)) memory_active
    = (Ok m', t0 ++ [Sleep s])
    /\ filter is_sleep t0 = []
    /\ (s = 1 \/ s = backoff_seconds memory_active \/ s = 2)%Z.
Proof.
  exact (every_iteration_ends_with_one_sleep (world_polling (Fails USBError))
           memory_active eq_refl).
Defined.

(** * Display names *)

Section SplitBy.
Open Scope string_scope.

Variable sep_head : ascii.
Variable sep_tail : string.
Let sep : string := String sep_head sep_tail.

Lemma startswith_inv (s p : string) :
  startswith s p = true -> exists r, s = p ++ r.
Proof.
  revert s. induction p as [|a p IH]; intros s H.
  - now exists s.
  - destruct s as [|b s]; [discriminate|]. cbn [startswith] in H.
    apply andb_true_iff in H. destruct H as [Hab Hs].
    apply Ascii.eqb_eq in Hab. subst b.
    destruct (IH s Hs) as [r ->]. now exists r.
Qed.

Lemma startswith_app_l (a b p : string) :
  startswith a p = true -> startswith (a ++ b) p = true.
Proof.
  revert a. induction p as [|c p IH]; intros a H; [reflexivity|].
  destruct a as [|x a]; [discriminate|]. cbn [startswith append] in *.
  apply andb_true_iff in H. destruct H as [-> Ha]. now rewrite (IH a Ha).
Qed.

Lemma startswith_self (p b : string) : startswith (p ++ b) p = true.
Proof.
  induction p as [|c p IH]; [reflexivity|].
  cbn [append startswith]. now rewrite Ascii.eqb_refl.
Qed.

Lemma contains_here (p s : string) :
  startswith s p = true -> contains p s = true.
Proof. intros H. destruct s; cbn [contains]; now rewrite H. Qed.

Lemma contains_later (p a s : string) :
  contains p s = true -> contains p (a ++ s) = true.
Proof.
  intros H. induction a as [|c a IH]; [exact H|].
  cbn [append contains]. rewrite IH. apply orb_true_r.
Qed.

Lemma skip_passes (x r : string) :
  split_by_from sep (String.length x) (x ++ r) = split_by_from sep 0 r.
Proof.
  induction x as [|c x IH]; [reflexivity|]. cbn [String.length append split_by_from].
  exact IH.
Qed.

(** At an occurrence of the separator a piece ends. *)
Lemma split_by_at_sep (r : string) :
  split_by sep (sep ++ r) = EmptyString :: split_by sep r.
Proof.
  unfold split_by, sep. cbn [append split_by_from].
  assert (H : startswith (String sep_head (sep_tail ++ r)) (String sep_head sep_tail) = true).
  { apply (startswith_app_l (String sep_head sep_tail) r).
    clear. cbn [startswith]. rewrite Ascii.eqb_refl. cbn [andb].
    induction sep_tail as [|c t IH]; [reflexivity|].
    cbn [startswith]. now rewrite Ascii.eqb_refl. }
  rewrite H.
  replace (String.length (String sep_head sep_tail) - 1)
    with (String.length sep_tail) by (cbn [String.length]; lia).
  now rewrite skip_passes.
Qed.

Lemma split_by_not_nil (skip : nat) (s : string) : split_by_from sep skip s <> [].
Proof.
  revert skip. induction s as [|c s IH]; intros skip; [discriminate|].
  cbn [split_by_from]. destruct skip; [|apply IH].
  destruct (startswith _ _); [discriminate|].
  destruct (split_by_from sep 0 s); discriminate.
Qed.

(** A string without the separator is one piece; otherwise the first
    piece is what stands before the leftmost separator, and the other
    pieces are those of the rest. *)
Lemma split_by_cases (s : string) :
  (contains sep s = false /\ split_by sep s = [s])
  \/ (exists p r, s = p ++ sep ++ r /\ contains sep p = false
                  /\ split_by sep s = p :: split_by sep r).
Proof.
  induction s as [|c s IH]; [now left|].
  destruct (startswith (String c s) sep) eqn:Hh.
  - right. destruct (startswith_inv _ _ Hh) as [r E].
    exists EmptyString, r. rewrite E. split; [reflexivity|].
    split; [reflexivity|apply split_by_at_sep].
  - assert (Hstep : split_by sep (String c s)
                    = match split_by sep s with
                      | p :: ps => String c p :: ps
                      | [] => [String c EmptyString]
                      end).
    { unfold split_by. cbn [split_by_from]. now rewrite Hh. }
    destruct IH as [[Hno Hone]|(p & r & E & Hp & Hs)].
    + left. split.
      * cbn [contains]. now rewrite Hh, Hno.
      * now rewrite Hstep, Hone.
    + right. exists (String c p), r. split; [now rewrite E|]. split.
      * cbn [contains]. rewrite Hp, orb_false_r.
        destruct (startswith (String c p) sep) eqn:Hcp; [|reflexivity].
        apply (startswith_app_l _ (sep ++ r)) in Hcp.
        cbn [append] in Hcp. rewrite <- E in Hcp. congruence.
      * now rewrite Hstep, Hs.
Qed.

Lemma string_length_app (a b : string) :
  String.length (a ++ b) = String.length a + String.length b.
Proof. induction a as [|c a IH]; cbn; [reflexivity|now rewrite IH]. Qed.

Lemma app_assoc_string (a b c : string) : (a ++ b) ++ c = a ++ b ++ c.
Proof. induction a as [|x a IH]; cbn; [reflexivity|now rewrite IH]. Qed.

(** The last piece is the end of the string and holds no separator. *)
Lemma split_by_last (n : nat) (s : string) :
  String.length s <= n ->
  contains sep (List.last (split_by sep s) EmptyString) = false /\
  exists pre, s = pre ++ List.last (split_by sep s) EmptyString
              /\ (contains sep s = false -> pre = EmptyString).
Proof.
  revert s. induction n as [|n IH]; intros s Hlen.
  - destruct s; [|cbn in Hlen; lia]. split; [reflexivity|].
    exists EmptyString. now split.
  - destruct (split_by_cases s) as [[Hno Hone]|(p & r & E & Hp & Hs)].
    + rewrite Hone. cbn [List.last]. split; [exact Hno|].
      exists EmptyString. now split.
    + assert (Hr : String.length r <= n).
      { rewrite E, !string_length_app in Hlen. unfold sep in Hlen.
        cbn [String.length] in Hlen. lia. }
      destruct (IH r Hr) as (Hlast & pre & Er & _).
      rewrite Hs.
      assert (El : List.last (p :: split_by sep r) EmptyString
                   = List.last (split_by sep r) EmptyString).
      { cbn [List.last]. destruct (split_by sep r) eqn:Es; [|reflexivity].
        now apply split_by_not_nil in Es. }
      rewrite El. split; [exact Hlast|].
      exists (p ++ sep ++ pre). split.
      * rewrite E at 1. rewrite Er at 1. now rewrite !app_assoc_string.
      * intros Hno. exfalso. rewrite E in Hno.
        clear - Hno. induction p as [|c p IHp].
        -- cbn [append] in Hno.
           assert (H : startswith (sep ++ r) sep = true).
           { apply (startswith_app_l sep r). unfold sep. clear.
             cbn [startswith]. rewrite Ascii.eqb_refl. cbn [andb].
             induction sep_tail as [|c t IH]; [reflexivity|].
             cbn [startswith]. now rewrite Ascii.eqb_refl. }
           destruct (sep ++ r) eqn:Ex; cbn [contains] in Hno;
             rewrite H in Hno; discriminate.
        -- cbn [append contains] in Hno. apply orb_false_iff in Hno.
           now apply IHp.
Qed.

(** The first piece ends at the leftmost occurrence of the separator:
    no occurrence starts inside it. *)
Lemma split_by_leftmost (s : string) :
  (contains sep s = false /\ split_by sep s = [s])
  \/ (exists p r, s = p ++ sep ++ r
                  /\ (forall a c b, p = a ++ String c b ->
                                    startswith (String c b ++ sep ++ r) sep = false)
                  /\ split_by sep s = p :: split_by sep r).
Proof.
  induction s as [|c s IH]; [now left|].
  destruct (startswith (String c s) sep) eqn:Hh.
  - right. destruct (startswith_inv _ _ Hh) as [r E].
    exists EmptyString, r. rewrite E. split; [reflexivity|].
    split; [|apply split_by_at_sep].
    intros [|x a] c0 b Ea; discriminate.
  - assert (Hstep : split_by sep (String c s)
                    = match split_by sep s with
                      | p :: ps => String c p :: ps
                      | [] => [String c EmptyString]
                      end).
    { unfold split_by. cbn [split_by_from]. now rewrite Hh. }
    destruct IH as [[Hno Hone]|(p & r & E & Hp & Hs)].
    + left. split.
      * cbn [contains]. now rewrite Hh, Hno.
      * now rewrite Hstep, Hone.
    + right. exists (String c p), r. split; [now rewrite E|]. split.
      * intros [|x a] c0 b Ea; cbn [append] in Ea; injection Ea as -> Ea.
        -- subst b. cbn [append]. now rewrite <- E.
        -- now apply (Hp a).
      * now rewrite Hstep, Hs.
Qed.

(** In a string that holds the separator, the last piece is what follows
    the last occurrence. *)
Lemma split_by_last_after (n : nat) (s : string) :
  String.length s <= n -> contains sep s = true ->
  contains sep (List.last (split_by sep s) EmptyString) = false /\
  exists pre, s = pre ++ sep ++ List.last (split_by sep s) EmptyString.
Proof.
  revert s. induction n as [|n IH]; intros s Hlen Hc.
  - destruct s; [discriminate|cbn in Hlen; lia].
  - destruct (split_by_cases s) as [[Hno _]|(p & r & E & Hp & Hs)];
      [congruence|].
    assert (El : List.last (split_by sep s) EmptyString
                 = List.last (split_by sep r) EmptyString).
    { rewrite Hs. cbn [List.last]. destruct (split_by sep r) eqn:Es; [|reflexivity].
      now apply split_by_not_nil in Es. }
    rewrite El. destruct (contains sep r) eqn:Hr.
    + assert (Hlr : String.length r <= n).
      { rewrite E, !string_length_app in Hlen. unfold sep in Hlen.
        cbn [String.length] in Hlen. lia. }
      destruct (IH r Hlr Hr) as (Hlast & pre & Er).
      split; [exact Hlast|].
      exists (p ++ sep ++ pre). rewrite E at 1. rewrite Er at 1.
      now rewrite !app_assoc_string.
    + destruct (split_by_cases r) as [[_ Hone]|(p2 & r2 & E2 & _)].
      * rewrite Hone. cbn [List.last]. split; [exact Hr|].
        exists p. exact E.
      * exfalso. rewrite E2 in Hr.
        assert (H : contains sep (p2 ++ sep ++ r2) = true)
          by apply contains_later, contains_here, startswith_self.
        congruence.
Qed.

End SplitBy.

(** No double underscore starts inside a piece that ends at the leftmost
    one. *)
Lemma no_early_underscores (p r : string) :
  (forall a c b, p = (a ++ String c b)%string ->
                 startswith (String c b ++ "__" ++ r) "__" = false) ->
  contains "__" (p ++ "_") = false.
Proof.
  induction p as [|c p IH]; intros H; [reflexivity|].
  cbn [append contains]. rewrite IH.
  - rewrite orb_false_r.
    destruct (startswith (String c (p ++ "_")) "__") eqn:Hs; [|reflexivity].
    apply (startswith_app_l _ ("_" ++ r)) in Hs.
    assert (Hf := H EmptyString c p eq_refl).
    replace (String c p ++ "__" ++ r)%string
      with (String c (p ++ "_") ++ "_" ++ r)%string in Hf; [congruence|].
    cbn [append]. f_equal. now rewrite app_assoc_string.
  - intros a c0 b E. apply (H (String c a)). cbn [append]. now rewrite E.
Qed.

(** What [format_node_name] returns, case by case. *)
Lemma format_node_name_piece (name : string) :
  (contains "__" name = true -> between_underscores name (format_node_name name))
  /\ (contains "__" name = false -> contains "." name = true ->
      after_last_dot name (format_node_name name))
  /\ (contains "__" name = false -> contains "." name = false ->
      format_node_name name = name).
Proof.
  unfold format_node_name, between_underscores, after_last_dot.
  split; [|split]; intros Hu; rewrite Hu.
  - destruct (split_by_leftmost "_" "_" name) as [[Hno _]|(p & r & E & Hp & Hs)];
      [congruence|].
    rewrite Hs. apply no_early_underscores in Hp.
    destruct (split_by_leftmost "_" "_" r) as [[Hno Hone]|(p2 & r2 & E2 & Hp2 & Hs2)].
    + rewrite Hone. cbn [List.length Nat.leb nth_error].
      exists p, EmptyString. split; [|split; [exact Hp|now left]].
      assert (Hr : (r ++ EmptyString)%string = r)
        by (clear; induction r as [|c r IH]; cbn; [reflexivity|now rewrite IH]).
      now rewrite Hr.
    + rewrite Hs2. cbn [List.length Nat.leb nth_error].
      apply no_early_underscores in Hp2.
      exists p, ("__" ++ r2)%string. split; [|split; [exact Hp|now right]].
      now rewrite E, E2.
  - intros Hd. rewrite Hd.
    destruct (split_by_last_after "." EmptyString (String.length name) name
                (le_n _) Hd) as (Hlast & pre & E).
    exists pre. now split.
  - intros Hd. now rewrite Hd.
Qed.

Section PieceUnique.
Open Scope string_scope.

Lemma contains_tail (sub : string) (c : ascii) (s : string) :
  contains sub (String c s) = false -> contains sub s = false.
Proof. cbn [contains]. intros H. now apply orb_false_iff in H. Qed.

Lemma app_empty_r (s : string) : s ++ EmptyString = s.
Proof. induction s as [|c s IH]; cbn; [reflexivity|now rewrite IH]. Qed.

(** The leftmost double underscore of a string is at one place only. *)
Lemma leftmost_unique (p1 r1 p2 r2 : string) :
  p1 ++ "__" ++ r1 = p2 ++ "__" ++ r2 ->
  contains "__" (p1 ++ "_") = false -> contains "__" (p2 ++ "_") = false ->
  p1 = p2 /\ r1 = r2.
Proof.
  revert p2. induction p1 as [|c p1 IH]; intros p2 E H1 H2.
  - destruct p2 as [|d [|e p2]].
    + cbn in E. injection E as E. now split.
    + cbn in E. injection E as Hd E. subst d. cbn in H2. discriminate H2.
    + cbn in E. injection E as Hd He E. subst d e. cbn in H2. discriminate H2.
  - destruct p2 as [|d p2].
    + destruct p1 as [|e p1].
      * cbn in E. injection E as Hc E. subst c. cbn in H1. discriminate H1.
      * cbn in E. injection E as Hc He E. subst c e. cbn in H1. discriminate H1.
    + cbn [append] in E. injection E as Hc E. subst d.
      cbn [append] in H1, H2. apply contains_tail in H1, H2.
      destruct (IH p2 E H1 H2) as [-> ->]. now split.
Qed.

(** The text after the last dot of a string is one text only. *)
Lemma last_dot_unique (p1 x1 p2 x2 : string) :
  p1 ++ "." ++ x1 = p2 ++ "." ++ x2 ->
  contains "." x1 = false -> contains "." x2 = false -> x1 = x2.
Proof.
  revert p2. induction p1 as [|c p1 IH]; intros p2 E H1 H2.
  - destruct p2 as [|d p2].
    + cbn in E. now injection E.
    + cbn in E. injection E as Hd E. exfalso.
      assert (H : contains "." x1 = true).
      { rewrite E. exact (contains_later "." p2 ("." ++ x2)
                            (contains_here "." ("." ++ x2) (startswith_self "." x2))). }
      congruence.
  - destruct p2 as [|d p2].
    + cbn in E. injection E as Hc E. exfalso.
      assert (H : contains "." x2 = true).
      { rewrite <- E. exact (contains_later "." p1 ("." ++ x1)
                               (contains_here "." ("." ++ x1) (startswith_self "." x1))). }
      congruence.
    + cbn [append] in E. injection E as Hc E. now apply (IH p2).
Qed.

(** One string only stands between the leftmost double underscores. *)
Lemma between_underscores_unique (name x y : string) :
  between_underscores name x -> between_underscores name y -> x = y.
Proof.
  intros (pre & post & E & Hpre & Hx) (pre' & post' & E' & Hpre' & Hy).
  rewrite E' in E.
  destruct (leftmost_unique _ _ _ _ E Hpre' Hpre) as [_ Er].
  destruct Hx as [[-> Hx]|[Hp Hx]]; destruct Hy as [[-> Hy]|[Hp' Hy]].
  - rewrite !app_empty_r in Er. now symmetry.
  - exfalso. rewrite app_empty_r in Er. rewrite <- Er in Hx.
    destruct (startswith_inv _ _ Hp') as [t ->].
    assert (H : contains "__" (y ++ "__" ++ t) = true)
      by apply contains_later, contains_here, startswith_self.
    congruence.
  - exfalso. rewrite app_empty_r in Er. rewrite Er in Hy.
    destruct (startswith_inv _ _ Hp) as [t ->].
    assert (H : contains "__" (x ++ "__" ++ t) = true)
      by apply contains_later, contains_here, startswith_self.
    congruence.
  - destruct (startswith_inv _ _ Hp) as [t ->].
    destruct (startswith_inv _ _ Hp') as [t' ->].
    destruct (leftmost_unique _ _ _ _ Er Hy Hx) as [Ex _]. now symmetry.
Qed.

(** One string only follows the last dot. *)
Lemma after_last_dot_unique (name x y : string) :
  after_last_dot name x -> after_last_dot name y -> x = y.
Proof.
  intros (pre & E & Hx) (pre' & E' & Hy). rewrite E' in E.
  symmetry. exact (last_dot_unique _ _ _ _ E Hy Hx).
Qed.

End PieceUnique.

(** X20.  [format_node_name] returns one piece of the name.  For a name
    that holds a double underscore it is the text between the leftmost
    double underscore and the leftmost double underscore after that one,
    or the end of the name when none follows, and no other string is.
    For a name without a double underscore that holds a dot it is the
    text after the last dot, and no other string is.  Any other name is
    returned as it is. *)
Theorem format_node_name_is_a_piece (name : string) :
  (contains "__" name = true ->
   forall x, between_underscores name x <-> x = format_node_name name)
  /\ (contains "__" name = false -> contains "." name = true ->
      forall x, after_last_dot name x <-> x = format_node_name name)
  /\ (contains "__" name = false -> contains "." name = false ->
      format_node_name name = name).
Proof.
  destruct (format_node_name_piece name) as (Hu & Hd & Hn).
  split; [|split; [|exact Hn]].
  - intros Hc x. split.
    + intros Hx. exact (between_underscores_unique name _ _ Hx (Hu Hc)).
    + intros ->. exact (Hu Hc).
  - intros Hc Hdot x. split.
    + intros Hx. exact (after_last_dot_unique name _ _ Hx (Hd Hc Hdot)).
    + intros ->. exact (Hd Hc Hdot).
Qed.

Lemma format_node_name_is_a_piece_witness :
  between_underscores HDMI_SINK "HDMI1"
  /\ after_last_dot ANALOG_SINK "analog-stereo"
  /\ format_node_name "speakers" = "speakers".
Proof.
  split; [|split].
  - apply (proj1 (format_node_name_is_a_piece HDMI_SINK) eq_refl). reflexivity.
  - apply (proj1 (proj2 (format_node_name_is_a_piece ANALOG_SINK))
             eq_refl eq_refl).
    reflexivity.
  - apply (proj2 (proj2 (format_node_name_is_a_piece "speakers")));
      reflexivity.
Defined.

Open Scope list_scope.

(** * Port lines of a sink block *)

Section TextOfPortLines.
Open Scope string_scope.












End TextOfPortLines.

Open Scope list_scope.

(** The parser's state along the lines of one block. *)
Module SinkBlock.
Import SinkParser SinkParserInv SinkParserFacts.














End SinkBlock.



